(** * fabrikate: component tree resolution (core/component.go)

    A shallow embedding of the component loader, the configuration
    overlay loader, the path resolver, the sub-component installer and the
    breadth-first traversal engine, followed by the properties of the
    specification that concern them.

    Conventions of the embedding:
    - Go strings are [string]; slices are lists (the nil slice is [[]]);
    - Go maps are [gmap]s, a nil map and an empty map are both [∅]
      (reading never distinguishes them);
    - the file system and whatever else the callback and the sub-processes
      can touch is an abstract [World], observed through [files];
    - a method that mutates its receiver returns the new receiver;
    - the traversal loop is unbounded in Go; here it carries a fuel
      argument and answers [None] when the fuel runs out. *)

From Stdlib Require Import Ascii String.
From stdpp Require Import gmap strings list fin_maps.
Set Warnings "-register-all".
Local Open Scope string_scope.
Local Open Scope list_scope.

(** ** Go's [path] package (lexical path manipulation)

    [path.Clean] is modelled on path elements rather than on bytes: the
    elements between slashes are scanned left to right, [out] is the stack
    of elements written so far (top first). *)

Definition is_slash (c : ascii) : bool := Ascii.eqb c "/"%char.

(** [strings.Split(s, "/")]. *)
Fixpoint split_slash (s : string) : list string :=
  match s with
  | EmptyString => [EmptyString]
  | String c rest =>
      if is_slash c then EmptyString :: split_slash rest
      else match split_slash rest with
           | e :: es => String c e :: es
           | [] => [String c EmptyString]
           end
  end.

(** [strings.Join(es, "/")]. *)
Fixpoint join_slash (es : list string) : string :=
  match es with
  | [] => ""
  | [e] => e
  | e :: es' => e +:+ "/" +:+ join_slash es'
  end.

(** One round of the scanning loop of [path.Clean]: an empty element (a
    doubled or trailing slash) and "." are dropped; ".." removes the last
    element written unless there is none to remove (nothing written, or only
    leading ".." elements), in which case it is kept on a relative path and
    dropped on a rooted one; anything else is written. *)
Definition clean_element (rooted : bool) (out : list string) (e : string) : list string :=
  if String.eqb e "" then out
  else if String.eqb e "." then out
  else if String.eqb e ".." then
    match out with
    | top :: below =>
        if String.eqb top ".." then (if rooted then out else ".." :: out)
        else below
    | [] => if rooted then out else [".."]
    end
  else e :: out.

Definition is_rooted (p : string) : bool :=
  match p with
  | String c _ => is_slash c
  | EmptyString => false
  end.

Definition path_Clean (p : string) : string :=
  if String.eqb p "" then "."
  else
    let rooted := is_rooted p in
    let out := rev (fold_left (clean_element rooted) (split_slash p) []) in
    if rooted then "/" +:+ join_slash out
    else match out with
         | [] => "."
         | _ => join_slash out
         end.

(** [path.Join]: empty elements are ignored, the rest is joined with
    slashes and cleaned; when every element is empty the result is "". *)
Definition path_Join (elem : list string) : string :=
  match filter (fun e => e ≠ "") elem with
  | [] => ""
  | es => path_Clean (join_slash es)
  end.

(** A plain path element: not empty, no slash, neither "." nor "..". *)
Definition has_slash (s : string) : bool :=
  existsb is_slash (list_ascii_of_string s).

Definition plain_name (n : string) : bool :=
  negb (String.eqb n "") && negb (String.eqb n ".") && negb (String.eqb n "..")
  && negb (has_slash n).

(** What [path.Clean] writes: elements that are never empty, never ".",
    and without a slash. *)
Definition written (e : string) : Prop :=
  e ≠ "" ∧ e ≠ "." ∧ has_slash e = false.

(** ** Data model *)

(** The values of a configuration map ([interface{}] filled by the JSON
    decoder).  Numbers are kept as their literal. *)
Inductive Value :=
  | VNull
  | VBool (b : bool)
  | VNumber (literal : string)
  | VString (s : string)
  | VArray (items : list Value)
  | VObject (fields : list (string * Value)).

Module ComponentConfig.

(** Modelled from the spec: the declaration of [ComponentConfig] is not in
    component.go; section 3 of the specification gives it as a mapping
    from string keys to arbitrary values together with a mapping from child
    names to the child's own [ComponentConfig]. *)
Inductive t := mk {
  Config : gmap string Value;
  Subcomponents : gmap string t
}.

(** The zero value; also what the traversal builds for its root with two
    [make]d maps. *)
Definition empty : t := mk ∅ ∅.
End ComponentConfig.

Inductive Component := mkComponent {
  Name : string;
  Source : string;
  Method : string;
  Generator : string;
  Subcomponents : list Component;
  Repo : string;
  Path : string;
  PhysicalPath : string;
  LogicalPath : string;
  Config : ComponentConfig.t;
  Manifest : string
}.

Definition set_PhysicalPath (p : string) (c : Component) : Component :=
  mkComponent (Name c) (Source c) (Method c) (Generator c) (Subcomponents c)
    (Repo c) (Path c) p (LogicalPath c) (Config c) (Manifest c).

Definition set_LogicalPath (p : string) (c : Component) : Component :=
  mkComponent (Name c) (Source c) (Method c) (Generator c) (Subcomponents c)
    (Repo c) (Path c) (PhysicalPath c) p (Config c) (Manifest c).

Definition set_Config (cfg : ComponentConfig.t) (c : Component) : Component :=
  mkComponent (Name c) (Source c) (Method c) (Generator c) (Subcomponents c)
    (Repo c) (Path c) (PhysicalPath c) (LogicalPath c) cfg (Manifest c).

(** ** Errors and the file system *)

Inductive error :=
  | NotFound (componentJSONPath : string)
      (* "Component expected at path %s not found" *)
  | IOError (path : string)
  | ParseError
  | InstallError (argv : list string)
  | CallbackError (msg : string).

(** What a path holds when it exists: bytes that can be read, or something
    that [ioutil.ReadFile] fails on.  A path that is not a key of the map
    does not exist ([os.IsNotExist]). *)
Inductive File :=
  | Unreadable
  | Data (bytes : string).

(** ** Path resolver *)

Definition RelativePathTo (c : Component) : string :=
  if String.eqb (Method c) "git" then "components/" +:+ Name c
  else if negb (String.eqb (Source c) "") then Name c
  else "./".

(** The three cases of section 4.4 of the specification, on the three
    fields they read. *)
Definition relativePathTo (method source name : string) : string :=
  if decide (method = "git") then "components/" +:+ name
  else if decide (source = "") then "./"
  else name.

(** ** Config merge engine *)

Module MergeModel.

(** The two precedence policies section 4.1 of the specification leaves
    open: a later overlay wins, or it only fills gaps. *)
Inductive Policy :=
  | OverlayWins
  | FillGaps.

(** Modelled from the spec: [ComponentConfig.Merge] is not in component.go.
    Section 4.1 describes it as combining two configuration trees (own
    values and nested per-child override maps) into one, the target being
    the result, and leaves the field-level precedence to a policy.  The own
    values are united under the policy; the per-child maps are merged child
    by child. *)
Fixpoint merge (policy : Policy) (target overlay : ComponentConfig.t)
    {struct target} : ComponentConfig.t :=
  ComponentConfig.mk
    (match policy with
     | OverlayWins => ComponentConfig.Config overlay ∪ ComponentConfig.Config target
     | FillGaps => ComponentConfig.Config target ∪ ComponentConfig.Config overlay
     end)
    (union_with (fun t o => Some (merge policy t o))
       (ComponentConfig.Subcomponents target)
       (ComponentConfig.Subcomponents overlay)).
End MergeModel.

(** ** The component tree as a specification object

    A resolved tree: every node carries the completed component, its
    children are the nodes of its non-inline declarations, in declaration
    order. *)
Inductive Tree :=
  | Node (component : Component) (children : list Tree).

Definition root_of (t : Tree) : Component :=
  match t with Node c _ => c end.

Definition children_of (t : Tree) : list Tree :=
  match t with Node _ kids => kids end.

(** The nodes at depth [d], left to right. *)
Fixpoint level (d : nat) (t : Tree) : list Component :=
  match d, t with
  | 0, Node c _ => [c]
  | S d', Node _ kids => flat_map (level d') kids
  end.

Fixpoint height (t : Tree) : nat :=
  match t with
  | Node _ kids => S (foldr Nat.max 0 (map height kids))
  end.

(** Breadth-first order: all of depth 0, then all of depth 1, and so on. *)
Definition breadth_first (t : Tree) : list Component :=
  flat_map (fun d => level d t) (seq 0 (height t)).


(** Every node once (depth-first, parents before children). *)
Fixpoint nodes (t : Tree) : list Component :=
  match t with
  | Node c kids => c :: flat_map nodes kids
  end.

(** The nodes below the root. *)
Definition descendants (t : Tree) : list Component :=
  flat_map nodes (children_of t).

(** The logical path of the node reached from the root through the names
    [names]: "./" for the root itself, the names joined by slashes below. *)
Definition logical_path_of (names : list string) : string :=
  match names with
  | [] => "./"
  | _ => join_slash names
  end.

(** A cleaned path from its elements, as [path.Clean] writes it: rooted or
    relative, "." when relative and without element. *)
Definition path_of (rooted : bool) (names : list string) : string :=
  if rooted then "/" +:+ join_slash names
  else match names with
       | [] => "."
       | _ => join_slash names
       end.

(** The number of plain elements of a path. *)
Definition steps (p : string) : nat :=
  length (filter (fun e => plain_name e = true) (split_slash p)).

(** The largest number of plain elements among the paths of a file
    system. *)
Definition deepest (fs : gmap string File) : nat :=
  map_fold (fun path _ d => Nat.max (steps path) d) 0 fs.

(** A bound on the number of visits below and at a node that has [depth]
    levels left under it, each node with at most [breadth] children. *)
Fixpoint visits_bound (breadth depth : nat) : nat :=
  match depth with
  | 0 => 1
  | S depth' => 1 + breadth * visits_bound breadth depth'
  end.

(** ** Sample deployments

    A world made of files, of the paths the callback has seen and of the
    commands that have been run; descriptors and overlays are named by
    their text instead of being written in JSON, and decoded by table. *)
Module Sample.

Record World := mkWorld {
  fs : gmap string File;
  seen : list string;
  commands : list (list string)
}.

(** Every command is recorded; cloning fails from one address and from
    the empty one. *)
Definition Run (argv : list string) (w : World) : World * option error :=
  let w' := mkWorld (fs w) (seen w) (commands w ++ [argv]) in
  match argv with
  | ["git"; "clone"; "https://example/gone.git"; _] => (w', Some (InstallError argv))
  | ["git"; "clone"; ""; _] => (w', Some (InstallError argv))
  | _ => (w', None)
  end.

(** A callback that records the physical path it is called with. *)
Definition record_visit (path : string) (c : Component) (w : World)
    : World * Component * option error :=
  (mkWorld (fs w) (seen w ++ [path]) (commands w), c, None).

Definition declaration (name source method : string) : Component :=
  mkComponent name source method "" [] "" "" "" "" ComponentConfig.empty "".

Definition descriptor (name : string) (subcomponents : list Component)
    (config : ComponentConfig.t) : Component :=
  mkComponent name "" "" "" subcomponents "" "" "" "" config "".

Definition resolved (name : string) (subcomponents : list Component)
    (physicalPath logicalPath : string) (config : ComponentConfig.t) : Component :=
  mkComponent name "" "" "" subcomponents "" "" physicalPath logicalPath config "".

Fixpoint lookup_table {A : Type} (table : list (string * A)) (key : string) : option A :=
  match table with
  | [] => None
  | (k, v) :: rest => if String.eqb k key then Some v else lookup_table rest key
  end.

Definition assets : Component := declaration "assets" "" "".
Definition web : Component := declaration "web" "https://example/web.git" "git".
Definition db : Component := declaration "db" "https://example/db.tar" "".
Definition api : Component := declaration "api" "https://example/api.git" "git".
Definition gone : Component := declaration "gone" "https://example/gone.git" "git".

Definition replicas (n : string) : ComponentConfig.t :=
  ComponentConfig.mk {[ "replicas" := VNumber n ]} ∅.

Definition shop_config : ComponentConfig.t :=
  ComponentConfig.mk ∅ {[ "web" := replicas "3" ]}.

Definition descriptors : list (string * Component) :=
  [ ("shop", descriptor "shop" [assets; web; db] shop_config);
    ("web", descriptor "web" [api] ComponentConfig.empty);
    ("db", descriptor "db" [] ComponentConfig.empty);
    ("api", descriptor "api" [] ComponentConfig.empty);
    ("app", descriptor "app" [assets; web] ComponentConfig.empty);
    ("twice", descriptor "twice" [web; web] ComponentConfig.empty);
    ("leaf", descriptor "web" [] ComponentConfig.empty);
    ("slash",
     descriptor "slash" [declaration "web/" "https://example/web.git" "git"]
       ComponentConfig.empty) ].

Definition json_Unmarshal_Component (bytes : string) : option Component :=
  lookup_table descriptors bytes.

Definition production : ComponentConfig.t :=
  ComponentConfig.mk {[ "port" := VNumber "80" ]} ∅.

Definition common : ComponentConfig.t :=
  ComponentConfig.mk {[ "port" := VNumber "8080"; "debug" := VBool false ]} ∅.

Definition json_Unmarshal_ComponentConfig (bytes : string) : option ComponentConfig.t :=
  lookup_table [("production", production); ("common", common)] bytes.

(** A shop with an inline component, two fetched ones, and one below. *)
Definition shop_files : gmap string File :=
  list_to_map
    [ ("/repo/component.json", Data "shop");
      ("/repo/config/production.json", Data "production");
      ("/repo/config/common.json", Data "common");
      ("/repo/components/web/component.json", Data "web");
      ("/repo/db/component.json", Data "db");
      ("/repo/components/web/components/api/component.json", Data "api") ].

(** The scenario of the specification: the root declares an inline
    [assets] and a git [web]; the descriptor of [web] is not there. *)
Definition app_files : gmap string File :=
  list_to_map [ ("/repo/component.json", Data "app") ].

(** A root that declares [web] twice. *)
Definition twice_files : gmap string File :=
  list_to_map
    [ ("/repo/component.json", Data "twice");
      ("/repo/components/web/component.json", Data "leaf") ].


(** Overlays that are there but broken. *)
Definition broken_files : gmap string File :=
  list_to_map
    [ ("/repo/component.json", Data "db");
      ("/repo/config/production.json", Data "{");
      ("/repo/config/common.json", Unreadable) ].

Definition start (files : gmap string File) : World := mkWorld files [] [].

(** What the shop resolves to when overlays win over what they are merged
    into. *)
Definition shop_settings : ComponentConfig.t :=
  ComponentConfig.mk {[ "port" := VNumber "8080"; "debug" := VBool false ]}
    {[ "web" := replicas "3" ]}.

Definition shop_root : Component :=
  resolved "shop" [assets; web; db] "/repo" "./" shop_settings.
Definition shop_web : Component :=
  resolved "web" [api] "/repo/components/web" "web" (replicas "3").
Definition shop_db : Component :=
  resolved "db" [] "/repo/db" "db" ComponentConfig.empty.
Definition shop_api : Component :=
  resolved "api" [] "/repo/components/web/components/api" "web/api" ComponentConfig.empty.

Definition shop_tree : Tree :=
  Node shop_root [Node shop_web [Node shop_api []]; Node shop_db []].

Definition shop_done : World :=
  mkWorld shop_files
    ["/repo"; "/repo/components/web"; "/repo/db"; "/repo/components/web/components/api"] [].

Definition app_root : Component :=
  resolved "app" [assets; web] "/repo" "./" ComponentConfig.empty.

Definition twice_root : Component :=
  resolved "twice" [web; web] "/repo" "./" ComponentConfig.empty.
Definition twice_web : Component :=
  resolved "web" [] "/repo/components/web" "web" ComponentConfig.empty.



(** A component to install: two git sub-components, then one whose clone
    fails, then one more. *)
Definition fetch : Component :=
  descriptor "fetch" [assets; web; db; api; gone; web] ComponentConfig.empty.

(** A root whose declaration has a source, no method and no name: it
    resolves to the directory of the root itself. *)
Definition nameless : Component := declaration "" "https://example/self.tar" "".

Definition again_files : gmap string File :=
  list_to_map [ ("/repo/component.json", Data "again") ].

Definition again_decoder (bytes : string) : option Component :=
  lookup_table [("again", descriptor "again" [nameless] ComponentConfig.empty)] bytes.

(** The declarations of [fetch], each with a declaration of its own
    below. *)
Definition with_api (d : Component) : Component :=
  mkComponent (Name d) (Source d) (Method d) "" [api] "" "" "" "" ComponentConfig.empty "".

Definition fetch_below : Component :=
  descriptor "other" (map with_api [assets; web; db; api; gone; web]) (replicas "2").

(** The shop after a traversal that installs: the commands that were
    run. *)
Definition shop_installed : World :=
  mkWorld shop_files []
    [ ["mkdir"; "-p"; "/repo/components"];
      ["rm"; "-rf"; "/repo/components/web"];
      ["git"; "clone"; "https://example/web.git"; "/repo/components/web"];
      ["mkdir"; "-p"; "/repo/components/web/components"];
      ["rm"; "-rf"; "/repo/components/web/components/api"];
      ["git"; "clone"; "https://example/api.git"; "/repo/components/web/components/api"] ].

(** A component whose only sub-component has the method "git" and no
    source. *)
(** A descriptor that is there and cannot be read. *)
Definition unreadable_files : gmap string File :=
  list_to_map [ ("/repo/component.json", Unreadable) ].




Definition sourceless : Component :=
  descriptor "sourceless" [declaration "cache" "" "git"] ComponentConfig.empty.

End Sample.

(** The declarations with a source of a component have plain names, no two
    of them the same. *)
Definition well_named (c : Component) : Prop :=
  NoDup (map Name (filter (fun sub => Source sub ≠ "") (Subcomponents c)))
  ∧ Forall (fun sub => plain_name (Name sub) = true)
      (filter (fun sub => Source sub ≠ "") (Subcomponents c)).

(** The invariant of the traversal on the places of the nodes below the
    root (a place is the list of names that leads to it): [settled] for the
    completed components, [pending] for the queue.  No place occurs twice,
    the names are plain, and nothing below a pending place is there yet. *)
Definition places_ok (settled pending : list (list string)) : Prop :=
  NoDup (settled ++ pending)
  ∧ Forall (Forall (fun n => plain_name n = true)) (settled ++ pending)
  ∧ ∀ p x, p ∈ pending → x ∈ settled ++ pending → p `prefix_of` x → x = p.

Section Core.

(** The parts the file imports: the merge engine, the JSON decoder at the
    two types it is used at, and the world outside the process. *)
Variable Merge : ComponentConfig.t → ComponentConfig.t → ComponentConfig.t.
Variable json_Unmarshal_Component : string → option Component.
Variable json_Unmarshal_ComponentConfig : string → option ComponentConfig.t.

Context {World : Type}.
Variable files : World → gmap string File.

(** [exec.Command(argv...).Run()]. *)
Variable Run : list string → World → World * option error.

(** *** Component descriptor loader

    The Go function returns a component together with the error; the
    component that accompanies an error is never looked at. *)
Definition LoadComponent (fs : gmap string File) (c : Component) : error + Component :=
  let componentJSONPath := path_Join [PhysicalPath c; "component.json"] in
  match fs !! componentJSONPath with
  | None => inl (NotFound componentJSONPath)
  | Some Unreadable => inl (IOError componentJSONPath)
  | Some (Data componentJSON) =>
      match json_Unmarshal_Component componentJSON with
      | None => inl ParseError
      | Some mergedComponent =>
          let mergedComponent := set_PhysicalPath (PhysicalPath c) mergedComponent in
          let mergedComponent := set_LogicalPath (LogicalPath c) mergedComponent in
          let mergedComponent :=
            set_Config (Merge (Config mergedComponent) (Config c)) mergedComponent in
          inr mergedComponent
      end
  end.

(** *** Environment config loader

    Both methods mutate their receiver: they return it with the error. *)
Definition MergeConfigFile (fs : gmap string File) (path : string) (c : Component)
    : Component * option error :=
  match fs !! path with
  | None => (c, None)
  | Some Unreadable => (c, Some (IOError path))
  | Some (Data configString) =>
      match json_Unmarshal_ComponentConfig configString with
      | None => (c, Some ParseError)
      | Some componentConfig => (set_Config (Merge (Config c) componentConfig) c, None)
      end
  end.

Definition LoadConfig (fs : gmap string File) (environment : string) (c : Component)
    : Component * option error :=
  let environmentFileName := environment +:+ ".json" in
  let environmentConfigPath := path_Join [PhysicalPath c; "config"; environmentFileName] in
  match MergeConfigFile fs environmentConfigPath c with
  | (c, Some err) => (c, Some err)
  | (c, None) =>
      let commonPath := path_Join [PhysicalPath c; "config"; "common.json"] in
      match MergeConfigFile fs commonPath c with
      | (c, Some err) => (c, Some err)
      | (c, None) => (c, None)
      end
  end.

(** What the specification says of one overlay file: absent, it is
    skipped; unreadable, it is an I/O error; malformed, it is a parse
    error; otherwise it is the configuration to merge. *)
Definition overlay (fs : gmap string File) (path : string)
    : error + option ComponentConfig.t :=
  match fs !! path with
  | None => inr None
  | Some Unreadable => inl (IOError path)
  | Some (Data bytes) =>
      match json_Unmarshal_ComponentConfig bytes with
      | None => inl ParseError
      | Some cfg => inr (Some cfg)
      end
  end.

Definition merge_overlay (o : option ComponentConfig.t) (c : Component) : Component :=
  match o with
  | None => c
  | Some cfg => set_Config (Merge (Config c) cfg) c
  end.

(** *** Sub-component installer *)

(** Sequencing of two fallible commands on the world. *)
Definition and_then (first next : World → World * option error)
    : World → World * option error :=
  fun w =>
    match first w with
    | (w', Some err) => (w', Some err)
    | (w', None) => next w'
    end.

Infix ">>>" := and_then (at level 65, right associativity).

Definition no_error : World → World * option error := fun w => (w, None).

Fixpoint Install_range (componentPath : string) (subcomponents : list Component)
    : World → World * option error :=
  match subcomponents with
  | [] => no_error
  | subcomponent :: rest =>
      if String.eqb (Method subcomponent) "git" then
        let componentsPath := componentPath +:+ "/components" in
        let subcomponentPath := path_Join [componentPath; RelativePathTo subcomponent] in
        Run ["mkdir"; "-p"; componentsPath] >>>
        Run ["rm"; "-rf"; subcomponentPath] >>>
        Run ["git"; "clone"; Source subcomponent; subcomponentPath] >>>
        Install_range componentPath rest
      else Install_range componentPath rest
  end.

Definition Install (c : Component) (componentPath : string)
    : World → World * option error :=
  Install_range componentPath (Subcomponents c).

(** What the specification says [Install] does, as a list of commands:
    three per immediate sub-component fetched with git, nothing for the
    others. *)
Definition install_steps (installPath : string) (sub : Component) : list (list string) :=
  let target := path_Join [installPath; RelativePathTo sub] in
  [ ["mkdir"; "-p"; installPath +:+ "/components"];
    ["rm"; "-rf"; target];
    ["git"; "clone"; Source sub; target] ].

Definition install_commands (c : Component) (installPath : string) : list (list string) :=
  flat_map (install_steps installPath)
    (filter (fun sub => Method sub = "git") (Subcomponents c)).

(** Running a list of commands, stopping at the first that fails. *)
Fixpoint run_all (commands : list (list string)) : World → World * option error :=
  match commands with
  | [] => no_error
  | argv :: rest => Run argv >>> run_all rest
  end.

(** *** Tree traversal engine *)

(** The callback receives the physical path and a pointer to the
    component: it may change the component and the world. *)
Definition ComponentIteration : Type :=
  string → Component → World → World * Component * option error.

Definition rootComponent (startingPath : string) : Component :=
  mkComponent "" "" "" "" [] "" "" startingPath "./" (ComponentConfig.mk ∅ ∅) "".

Definition componentToQueue (component subcomponent : Component) : Component :=
  mkComponent (Name subcomponent) "" "" "" [] "" ""
    (path_Join [PhysicalPath component; RelativePathTo subcomponent])
    (path_Join [LogicalPath component; Name subcomponent])
    (default ComponentConfig.empty
       (ComponentConfig.Subcomponents (Config component) !! Name subcomponent))
    "".

(** The inner loop over the declared sub-components. *)
Definition enqueueSubcomponents (component : Component) (queue : list Component)
    : list Component :=
  fold_left
    (fun queue subcomponent =>
       if String.eqb (Source subcomponent) "" then queue
       else queue ++ [componentToQueue component subcomponent])
    (Subcomponents component) queue.

Variable environment : string.
Variable componentIteration : ComponentIteration.

(** The [for len(queue) != 0] loop. *)
Fixpoint iterate (fuel : nat) (w : World) (queue completedComponents : list Component)
    : option (World * (list Component * option error)) :=
  match queue with
  | [] => Some (w, (completedComponents, None))
  | component :: queue =>
      match fuel with
      | 0 => None
      | S fuel =>
          match LoadComponent (files w) component with
          | inl err => Some (w, ([], Some err))
          | inr component =>
              match LoadConfig (files w) environment component with
              | (_, Some err) => Some (w, ([], Some err))
              | (component, None) =>
                  match componentIteration (PhysicalPath component) component w with
                  | (w, _, Some err) => Some (w, ([], Some err))
                  | (w, component, None) =>
                      iterate fuel w
                        (enqueueSubcomponents component queue)
                        (completedComponents ++ [component])
                  end
              end
          end
      end
  end.

Definition IterateComponentTree (fuel : nat) (startingPath : string) (w : World)
    : option (World * (list Component * option error)) :=
  iterate fuel w [rootComponent startingPath] [].

(** One visit seen from outside the loop: load, overlay, dispatch. *)
Definition visit (w : World) (stub : Component) : World * (error + Component) :=
  match LoadComponent (files w) stub with
  | inl err => (w, inl err)
  | inr component =>
      match LoadConfig (files w) environment component with
      | (_, Some err) => (w, inl err)
      | (component, None) =>
          match componentIteration (PhysicalPath component) component w with
          | (w', _, Some err) => (w', inl err)
          | (w', component, None) => (w', inr component)
          end
      end
  end.

(** The stubs a completed component puts on the queue. *)
Definition stubs (component : Component) : list Component :=
  map (componentToQueue component)
    (filter (fun sub => Source sub ≠ "") (Subcomponents component)).

(** A run of visits, one per stub, in order, each in the world the
    previous one left. *)
Inductive visits : World → list Component → list Component → World → Prop :=
  | visits_nil w : visits w [] [] w
  | visits_cons w w1 w' stub c rest cs :
      visit w stub = (w1, inr c) →
      visits w1 rest cs w' →
      visits w (stub :: rest) (c :: cs) w'.

(** The states the loop goes through: [reach w queue completed w' queue'
    completed'] when the loop, started on the first three, arrives at the
    top of the loop with the last three after some rounds without error. *)
Inductive reach : World → list Component → list Component →
                  World → list Component → list Component → Prop :=
  | reach_here w queue completed : reach w queue completed w queue completed
  | reach_round w stub queue completed w1 c w' queue' completed' :
      visit w stub = (w1, inr c) →
      reach w1 (queue ++ stubs c) (completed ++ [c]) w' queue' completed' →
      reach w (stub :: queue) completed w' queue' completed'.

(** A callback that keeps, beside the world, the list of the calls it
    receives: the path and the component of each, in order. *)
Definition logged (callback : ComponentIteration) (path : string) (c : Component)
    (wl : World * list (string * Component))
    : (World * list (string * Component)) * Component * option error :=
  match callback path c wl.1 with
  | (w', c', err) => ((w', wl.2 ++ [(path, c)]), c', err)
  end.

(** [Install] as the callback of the traversal: each component installs
    its sub-components under its own physical path. *)
Definition installing (path : string) (c : Component) (w : World)
    : World * Component * option error :=
  match Install c path w with
  | (w', err) => (w', c, err)
  end.

(** [Unfolds stable stub t]: the tree [t] is what the stub unfolds to, in
    every world that is [stable] (say, where the descriptors are in place).
    Visiting the stub in a stable world gives the root of [t] and leaves the
    world stable, and the children of [t] are what the stubs of the root
    unfold to. *)
Inductive Unfolds (stable : World → Prop) : Component → Tree → Prop :=
  | Unfolds_node stub c kids :
      (∀ w, stable w → ∃ w', visit w stub = (w', inr c) ∧ stable w') →
      Forall2 (Unfolds stable) (stubs c) kids →
      Unfolds stable stub (Node c kids).



(** ** Properties of the path functions *)

Lemma append_cons (c : ascii) (s t : string) : String c s +:+ t = String c (s +:+ t).
Proof. reflexivity. Qed.

Lemma append_nil_r (s : string) : s +:+ "" = s.
Proof. induction s as [|c s IH]; [done | by rewrite append_cons, IH]. Qed.

Lemma append_assoc (a b c : string) : (a +:+ b) +:+ c = a +:+ b +:+ c.
Proof. induction a as [|x a IH]; [done | by rewrite !append_cons, IH]. Qed.

Lemma split_slash_not_nil (s : string) : split_slash s ≠ [].
Proof.
  induction s as [|c s IH]; simpl; [done |].
  destruct (is_slash c); [done |]. by destruct (split_slash s).
Qed.

Lemma split_slash_plain (s : string) : has_slash s = false → split_slash s = [s].
Proof.
  unfold has_slash. induction s as [|c s IH]; simpl; [done |].
  intros [Hc Hs]%orb_false_iff. rewrite Hc. by rewrite (IH Hs).
Qed.

Lemma split_slash_append (a b : string) :
  has_slash a = false →
  split_slash (a +:+ "/" +:+ b) = a :: split_slash b.
Proof.
  unfold has_slash. induction a as [|c a IH]; [done |].
  rewrite append_cons. simpl.
  intros [Hc Ha]%orb_false_iff. rewrite Hc. by rewrite (IH Ha).
Qed.

Lemma split_slash_join (es : list string) :
  es ≠ [] → Forall (fun e => has_slash e = false) es →
  split_slash (join_slash es) = es.
Proof.
  induction es as [|e es IH]; [done |]. intros _ Hall.
  apply Forall_cons in Hall as [He Hes].
  destruct es as [|e' es].
  - simpl. by apply split_slash_plain.
  - change (join_slash (e :: e' :: es)) with (e +:+ "/" +:+ join_slash (e' :: es)).
    rewrite split_slash_append by done. by rewrite IH.
Qed.

Lemma join_slash_snoc (es : list string) (n : string) :
  es ≠ [] → join_slash (es ++ [n]) = join_slash es +:+ "/" +:+ n.
Proof.
  induction es as [|e es IH]; [done |]. intros _.
  destruct es as [|e' es]; [done |].
  change (join_slash ((e :: e' :: es) ++ [n]))
    with (e +:+ "/" +:+ join_slash ((e' :: es) ++ [n])).
  rewrite IH by done.
  change (join_slash (e :: e' :: es)) with (e +:+ "/" +:+ join_slash (e' :: es)).
  by rewrite !append_assoc.
Qed.

Lemma plain_name_spec (n : string) :
  plain_name n = true ↔ n ≠ "" ∧ n ≠ "." ∧ n ≠ ".." ∧ has_slash n = false.
Proof.
  unfold plain_name. rewrite !andb_true_iff, !negb_true_iff, !String.eqb_neq.
  split; [intros [[[? ?] ?] ?] | intros (? & ? & ? & ?)]; auto.
Qed.

Lemma clean_element_plain (rooted : bool) (out : list string) (e : string) :
  plain_name e = true → clean_element rooted out e = e :: out.
Proof.
  intros (H1 & H2 & H3 & _)%plain_name_spec. unfold clean_element.
  apply String.eqb_neq in H1, H2, H3. by rewrite H1, H2, H3.
Qed.

Lemma clean_elements_plain (rooted : bool) (es out : list string) :
  Forall (fun e => plain_name e = true) es →
  fold_left (clean_element rooted) es out = rev es ++ out.
Proof.
  revert out. induction es as [|e es IH]; intros out Hall; [done |].
  apply Forall_cons in Hall as [He Hes]. simpl.
  rewrite clean_element_plain by done. rewrite IH by done.
  by rewrite <- app_assoc.
Qed.

Lemma plain_names_no_slash (es : list string) :
  Forall (fun e => plain_name e = true) es → Forall (fun e => has_slash e = false) es.
Proof.
  intros Hall. eapply Forall_impl; [exact Hall |].
  by intros e (_ & _ & _ & H)%plain_name_spec.
Qed.

Lemma path_Clean_plain (names : list string) :
  names ≠ [] → Forall (fun e => plain_name e = true) names →
  path_Clean (join_slash names) = join_slash names.
Proof.
  intros Hne Hall. unfold path_Clean.
  rewrite split_slash_join by auto using plain_names_no_slash.
  rewrite clean_elements_plain by done. rewrite app_nil_r, rev_involutive.
  destruct names as [|n names]; [done |].
  apply Forall_cons in Hall as [(Hn & _ & _ & Hs)%plain_name_spec _].
  assert (∃ c n', n = String c n' ∧ is_slash c = false) as (c & n' & -> & Hc).
  { destruct n as [|c n']; [done |]. exists c, n'. split; [done |].
    unfold has_slash in Hs. simpl in Hs. by apply orb_false_iff in Hs as [? _]. }
  assert (∃ rest, join_slash (String c n' :: names) = String c rest) as [rest Hjoin].
  { destruct names; simpl; eauto. }
  rewrite Hjoin. simpl. rewrite Hc. by rewrite <- Hjoin.
Qed.

Lemma path_Join_nonempty (e : string) (es : list string) :
  Forall (fun e => e ≠ "") (e :: es) →
  path_Join (e :: es) = path_Clean (join_slash (e :: es)).
Proof.
  intros Hall. unfold path_Join.
  assert (filter (fun e => e ≠ "") (e :: es) = e :: es) as ->; [| done].
  induction Hall as [|x l Hx _ IH]; [done |].
  by rewrite filter_cons_True, IH.
Qed.

Lemma path_Join_root (n : string) :
  plain_name n = true → path_Join ["./"; n] = n.
Proof.
  intros Hn. pose proof Hn as (Hne & _ & _ & Hs)%plain_name_spec.
  rewrite path_Join_nonempty by (repeat constructor; done).
  change (join_slash ["./"; n]) with (String "." (String "/" (String "/" n))).
  unfold path_Clean.
  assert (split_slash (String "." (String "/" (String "/" n))) = ["."; ""; n]) as ->.
  { simpl. by rewrite split_slash_plain. }
  simpl. by rewrite clean_element_plain.
Qed.

Lemma path_Join_below (names : list string) (n : string) :
  names ≠ [] → Forall (fun e => plain_name e = true) names → plain_name n = true →
  path_Join [join_slash names; n] = join_slash (names ++ [n]).
Proof.
  intros Hne Hall Hn. pose proof Hn as (Hnn & _)%plain_name_spec.
  assert (join_slash names ≠ "") as Hj.
  { destruct names as [|e names]; [done |].
    apply Forall_cons in Hall as [(He & _)%plain_name_spec _].
    destruct e; [done |]. by destruct names. }
  rewrite path_Join_nonempty by (repeat constructor; done).
  change (join_slash [join_slash names; n]) with (join_slash names +:+ "/" +:+ n).
  rewrite <- join_slash_snoc by done.
  apply path_Clean_plain.
  - by destruct names.
  - apply Forall_app. split; [done |]. by apply Forall_singleton.
Qed.

(** The logical path of a child, from the logical path of its parent. *)
Lemma path_Join_logical (names : list string) (n : string) :
  Forall (fun e => plain_name e = true) names → plain_name n = true →
  path_Join [logical_path_of names; n] = logical_path_of (names ++ [n]).
Proof.
  intros Hall Hn. destruct names as [|e names].
  - by apply path_Join_root.
  - change (logical_path_of (e :: names)) with (join_slash (e :: names)).
    by rewrite path_Join_below.
Qed.




Lemma join_slash_written_not_root (es : list string) :
  Forall written es → join_slash es ≠ "./".
Proof.
  intros Hall. destruct es as [|e es]; [done |].
  apply Forall_cons in Hall as [(Hne & Hdot & Hs) _].
  destruct es as [|e' es].
  - simpl. by intros ->.
  - change (join_slash (e :: e' :: es)) with (e +:+ "/" +:+ join_slash (e' :: es)).
    destruct e as [|c e]; [done |]. rewrite append_cons. intros [= -> Heq].
    destruct e as [|c' e]; [done |]. rewrite append_cons in Heq.
    injection Heq as -> _. by vm_compute in Hs.
Qed.



(** ** The traversal loop *)

Lemma enqueueSubcomponents_stubs (component : Component) (queue : list Component) :
  enqueueSubcomponents component queue = queue ++ stubs component.
Proof.
  unfold enqueueSubcomponents, stubs.
  generalize (Subcomponents component) as subs. intros subs. revert queue.
  induction subs as [|sub subs IH]; intros queue; simpl.
  - by rewrite app_nil_r.
  - rewrite IH. destruct (String.eqb_spec (Source sub) "") as [Heq | Hne].
    + by rewrite filter_cons_False by (by intros ?).
    + rewrite filter_cons_True by done. simpl. by rewrite <- app_assoc.
Qed.

(** One round of the loop is one visit. *)
Lemma iterate_step (fuel : nat) (w : World) (stub : Component)
    (queue completed : list Component) :
  iterate (S fuel) w (stub :: queue) completed =
    match visit w stub with
    | (w', inl err) => Some (w', ([], Some err))
    | (w', inr c) => iterate fuel w' (queue ++ stubs c) (completed ++ [c])
    end.
Proof.
  simpl. unfold visit.
  destruct (LoadComponent (files w) stub) as [err | c]; [done |].
  destruct (LoadConfig (files w) environment c) as [c' [err |]]; [done |].
  destruct (componentIteration (PhysicalPath c') c' w) as [[w' c''] [err |]]; [done |].
  by rewrite enqueueSubcomponents_stubs.
Qed.

Lemma iterate_empty (fuel : nat) (w : World) (completed : list Component) :
  iterate fuel w [] completed = Some (w, (completed, None)).
Proof. by destruct fuel. Qed.

(** More fuel does not change an answer. *)
Lemma iterate_fuel_mono (fuel extra : nat) (w : World) (queue completed : list Component) r :
  iterate fuel w queue completed = Some r →
  iterate (fuel + extra) w queue completed = Some r.
Proof.
  revert w queue completed. induction fuel as [|fuel IH]; intros w queue completed.
  - destruct queue; [| done]. simpl. by rewrite iterate_empty.
  - destruct queue as [|stub queue]; [by rewrite !iterate_empty |].
    change (S fuel + extra) with (S (fuel + extra)). rewrite !iterate_step.
    destruct (visit w stub) as [w' [err | c]]; [done |]. apply IH.
Qed.

(** Every answer with an error carries the nil slice. *)
Lemma iterate_error_nil (fuel : nat) (w w' : World)
    (queue completed result : list Component) (err : error) :
  iterate fuel w queue completed = Some (w', (result, Some err)) → result = [].
Proof.
  revert w queue completed. induction fuel as [|fuel IH]; intros w queue completed.
  - by destruct queue.
  - destruct queue as [|stub queue]; [by rewrite iterate_empty |].
    rewrite iterate_step.
    destruct (visit w stub) as [w1 [e | c]]; [by intros [= _ <- _] |]. apply IH.
Qed.

Lemma visits_length (w w' : World) (ss cs : list Component) :
  visits w ss cs w' → length ss = length cs.
Proof. induction 1; simpl; congruence. Qed.

(** ** Breadth-first order *)

Lemma level_zero_forest (ts : list Tree) : flat_map (level 0) ts = map root_of ts.
Proof. induction ts as [|[c kids] ts IH]; simpl; [done | by f_equal]. Qed.

Lemma level_succ_forest (d : nat) (ts : list Tree) :
  flat_map (level (S d)) ts = flat_map (level d) (flat_map children_of ts).
Proof.
  induction ts as [|[c kids] ts IH]; [done |].
  cbn [flat_map children_of]. rewrite flat_map_app, <- IH. done.
Qed.

Lemma levels_succ (h : nat) (ts : list Tree) :
  flat_map (fun d => flat_map (level d) ts) (seq 0 (S h)) =
  map root_of ts ++ flat_map (fun d => flat_map (level d) (flat_map children_of ts)) (seq 0 h).
Proof.
  change (seq 0 (S h)) with (0 :: seq 1 h). simpl.
  rewrite level_zero_forest. f_equal.
  rewrite <- seq_shift, flat_map_concat_map, map_map, <- flat_map_concat_map.
  apply flat_map_ext. intros d. apply level_succ_forest.
Qed.

Lemma nodes_forest_length (ts : list Tree) :
  length (flat_map nodes ts) = length ts + length (flat_map nodes (flat_map children_of ts)).
Proof.
  induction ts as [|[c kids] ts IH]; simpl; [done |].
  rewrite !length_app, flat_map_app, length_app, IH. lia.
Qed.

Lemma nodes_forest_levels (ts : list Tree) :
  flat_map nodes ts ≡ₚ map root_of ts ++ flat_map nodes (flat_map children_of ts).
Proof.
  induction ts as [|[c kids] ts IH]; simpl; [done |].
  rewrite flat_map_app, IH. f_equiv.
  rewrite !app_assoc. f_equiv. apply Permutation_app_comm.
Qed.

Lemma height_children (h : nat) (ts : list Tree) :
  (foldr Nat.max 0 (map height ts) ≤ S h)%nat →
  (foldr Nat.max 0 (map height (flat_map children_of ts)) ≤ h)%nat.
Proof.
  induction ts as [|[c kids] ts IH]; simpl; [lia |].
  intros Hle. rewrite map_app, foldr_app.
  assert (∀ (l : list nat) a b,
    (foldr Nat.max a l ≤ b ↔ a ≤ b ∧ foldr Nat.max 0 l ≤ b)%nat) as Hmax.
  { induction l as [|x l IHl]; intros a b; simpl; [lia |]. specialize (IHl a b). lia. }
  apply Hmax. split; [apply IH; lia | lia].
Qed.

Lemma height_zero_forest (ts : list Tree) :
  (foldr Nat.max 0 (map height ts) ≤ 0)%nat → ts = [].
Proof. destruct ts as [|[c kids] ts]; simpl; [done | lia]. Qed.

Lemma nodes_permutation_levels (h : nat) (ts : list Tree) :
  (foldr Nat.max 0 (map height ts) ≤ h)%nat →
  flat_map (fun d => flat_map (level d) ts) (seq 0 h) ≡ₚ flat_map nodes ts.
Proof.
  revert ts. induction h as [|h IH]; intros ts Hh.
  - by rewrite (height_zero_forest ts Hh).
  - rewrite levels_succ, nodes_forest_levels. f_equiv.
    apply IH. by apply height_children.
Qed.

Lemma breadth_first_forest (t : Tree) :
  breadth_first t = flat_map (fun d => flat_map (level d) [t]) (seq 0 (height t)).
Proof.
  unfold breadth_first. apply flat_map_ext. intros d. simpl. by rewrite app_nil_r.
Qed.

Lemma height_singleton (t : Tree) : foldr Nat.max 0 (map height [t]) = height t.
Proof. simpl. lia. Qed.

Lemma breadth_first_permutation (t : Tree) : breadth_first t ≡ₚ nodes t.
Proof.
  rewrite breadth_first_forest, nodes_permutation_levels.
  - simpl. by rewrite app_nil_r.
  - by rewrite height_singleton.
Qed.

Lemma nodes_descendants (t : Tree) : nodes t = root_of t :: descendants t.
Proof. by destruct t. Qed.

(** ** The loop on an unfolded tree *)

Lemma Unfolds_visit (stable : World → Prop) (stub : Component) (t : Tree) (w : World) :
  Unfolds stable stub t → stable w →
  ∃ w', visit w stub = (w', inr (root_of t)) ∧ stable w'.
Proof. intros Hu. destruct Hu as [stub c kids Hv _]. apply Hv. Qed.

Lemma Unfolds_children (stable : World → Prop) (ss : list Component) (ts : list Tree) :
  Forall2 (Unfolds stable) ss ts →
  Forall2 (Unfolds stable)
    (flat_map (fun t => stubs (root_of t)) ts) (flat_map children_of ts).
Proof.
  induction 1 as [|stub t ss ts Hu _ IH]; [constructor |].
  cbn [flat_map]. apply Forall2_app; [| done]. by destruct Hu.
Qed.

(** The loop works through one level of the tree: the stubs of the level
    leave the queue, their roots are completed, the stubs of the next level
    join the queue behind whatever was there. *)
Lemma iterate_level (stable : World → Prop) (ss : list Component) (ts : list Tree) :
  Forall2 (Unfolds stable) ss ts →
  ∀ w rest completed, stable w → ∃ w', stable w' ∧ ∀ fuel,
    iterate (length ts + fuel) w (ss ++ rest) completed =
    iterate fuel w' (rest ++ flat_map (fun t => stubs (root_of t)) ts)
      (completed ++ map root_of ts).
Proof.
  induction 1 as [|stub t ss ts Hu _ IH]; intros w rest completed Hw.
  - exists w. split; [done |]. intros fuel. simpl. by rewrite !app_nil_r.
  - destruct (Unfolds_visit stable stub t w Hu Hw) as (w1 & Hv & Hw1).
    destruct (IH w1 (rest ++ stubs (root_of t)) (completed ++ [root_of t]) Hw1)
      as (w' & Hw' & Hrun).
    exists w'. split; [done |]. intros fuel.
    change (length (t :: ts) + fuel) with (S (length ts + fuel)).
    change ((stub :: ss) ++ rest) with (stub :: (ss ++ rest)).
    rewrite iterate_step, Hv, <- app_assoc, Hrun.
    cbn [flat_map map]. by rewrite <- !app_assoc.
Qed.

(** Level after level, until no stub is left. *)
Lemma iterate_forest (stable : World → Prop) (h : nat)
    (ss : list Component) (ts : list Tree) :
  Forall2 (Unfolds stable) ss ts →
  (foldr Nat.max 0 (map height ts) ≤ h)%nat →
  ∀ w completed, stable w → ∃ w', ∀ fuel,
    iterate (length (flat_map nodes ts) + fuel) w ss completed =
    Some (w', (completed ++ flat_map (fun d => flat_map (level d) ts) (seq 0 h), None)).
Proof.
  revert ss ts. induction h as [|h IH]; intros ss ts Hu Hh w completed Hw.
  - rewrite (height_zero_forest ts Hh) in *. apply Forall2_nil_inv_r in Hu as ->.
    exists w. intros fuel. by rewrite iterate_empty, app_nil_r.
  - destruct (iterate_level stable ss ts Hu w [] completed Hw) as (w1 & Hw1 & Hlevel).
    destruct (IH _ _ (Unfolds_children stable ss ts Hu) (height_children h ts Hh)
                w1 (completed ++ map root_of ts) Hw1) as [w' Hrest].
    exists w'. intros fuel.
    rewrite nodes_forest_length, <- Nat.add_assoc.
    rewrite <- (app_nil_r ss), Hlevel, app_nil_l, Hrest.
    by rewrite levels_succ, app_assoc.
Qed.

(** Where the descriptors stay as they are: for every component tree [t]
    that the root stub unfolds to in the worlds that are [stable] (a finite
    tree: one node for the root and one per non-inline declaration reached
    from it), [IterateComponentTree] started in a stable world returns
    without error once it has fuel for every node, and with that answer
    whenever it returns; the completed components are the nodes of [t] in
    breadth-first order, there are as many as [t] has nodes below the root
    plus one, and each node of [t] occurs exactly once. *)
Theorem IterateComponentTree_unfolded (stable : World → Prop)
    (startingPath : string) (t : Tree) (w : World) :
  Unfolds stable (rootComponent startingPath) t →
  stable w →
  ∃ w',
    (∀ fuel, (length (nodes t) ≤ fuel)%nat →
       IterateComponentTree fuel startingPath w = Some (w', (breadth_first t, None)))
    ∧ (∀ fuel answer,
         IterateComponentTree fuel startingPath w = Some answer →
         answer = (w', (breadth_first t, None)))
    ∧ length (breadth_first t) = S (length (descendants t))
    ∧ breadth_first t ≡ₚ root_of t :: descendants t
    ∧ head (breadth_first t) = Some (root_of t).
Proof.
  intros Hu Hw.
  assert (Forall2 (Unfolds stable) [rootComponent startingPath] [t]) as Hforest
    by (by repeat constructor).
  destruct (iterate_forest stable (height t) _ _ Hforest
              ltac:(by rewrite height_singleton) w [] Hw) as [w' Hrun].
  assert (∀ fuel, (length (nodes t) ≤ fuel)%nat →
            IterateComponentTree fuel startingPath w = Some (w', (breadth_first t, None)))
    as Henough.
  { intros fuel Hfuel. unfold IterateComponentTree.
    replace fuel with (length (flat_map nodes [t]) + (fuel - length (nodes t)))
      by (simpl; rewrite app_nil_r; lia).
    by rewrite Hrun, breadth_first_forest. }
  exists w'. split; [exact Henough |]. split; [| split; [| split]].
  - intros fuel answer Hanswer.
    apply (iterate_fuel_mono _ (length (nodes t))) in Hanswer.
    unfold IterateComponentTree in Henough.
    rewrite Henough in Hanswer by lia. by injection Hanswer as <-.
  - by rewrite breadth_first_permutation, nodes_descendants.
  - by rewrite breadth_first_permutation, nodes_descendants.
  - destruct t as [c kids]. unfold breadth_first. simpl. done.
Qed.

(** ** The states of the loop *)

(** A run that ends well has gone through rounds without error down to the
    empty queue. *)
Lemma iterate_reach (fuel : nat) (w w' : World) (queue completed result : list Component) :
  iterate fuel w queue completed = Some (w', (result, None)) →
  reach w queue completed w' [] result.
Proof.
  revert w queue completed. induction fuel as [|fuel IH]; intros w queue completed.
  - destruct queue; [| done]. intros [= <- <-]. constructor.
  - destruct queue as [|stub queue].
    + rewrite iterate_empty. intros [= <- <-]. constructor.
    + rewrite iterate_step. destruct (visit w stub) as [w1 [e | c]] eqn:Hv; [done |].
      intros Hrun. econstructor; [exact Hv | by apply IH].
Qed.

(** The loop does go through the states of [reach]. *)
Lemma reach_iterate (w w' : World) (queue completed queue' completed' : list Component) :
  reach w queue completed w' queue' completed' →
  ∃ rounds, ∀ fuel,
    iterate (rounds + fuel) w queue completed = iterate fuel w' queue' completed'.
Proof.
  induction 1 as [w queue completed | w stub queue completed w1 c w' queue' completed' Hv _ IH].
  - by exists 0.
  - destruct IH as [rounds IH]. exists (S rounds). intros fuel.
    change (S rounds + fuel) with (S (rounds + fuel)). by rewrite iterate_step, Hv.
Qed.

(** What has been visited and what is queued, at any point: the completed
    components are the results of visiting, in order, the stubs that have
    left the queue; these and the stubs still queued are the stubs of the
    start followed by the stubs of the completed components. *)
Lemma reach_trace (w w' : World) (queue completed queue' completed' : list Component) :
  reach w queue completed w' queue' completed' →
  ∃ visited cs,
    completed' = completed ++ cs ∧ visits w visited cs w' ∧
    visited ++ queue' = queue ++ flat_map stubs cs.
Proof.
  induction 1 as [w queue completed | w stub queue completed w1 c w' queue' completed' Hv _ IH].
  - exists [], []. rewrite !app_nil_r. repeat split. constructor.
  - destruct IH as (visited & cs & -> & Hvs & Heq).
    exists (stub :: visited), (c :: cs). split; [by rewrite <- app_assoc |].
    split; [by econstructor |].
    cbn [flat_map app]. rewrite Heq. by rewrite <- app_assoc.
Qed.

(** ** The loop on any error-free run *)







(** How a visit fails. *)
Lemma visit_error (w w' : World) (stub : Component) (err : error) :
  visit w stub = (w', inl err) ↔
    (LoadComponent (files w) stub = inl err ∧ w' = w)
    ∨ (∃ c c', LoadComponent (files w) stub = inr c
               ∧ LoadConfig (files w) environment c = (c', Some err) ∧ w' = w)
    ∨ (∃ c c' c'', LoadComponent (files w) stub = inr c
               ∧ LoadConfig (files w) environment c = (c', None)
               ∧ componentIteration (PhysicalPath c') c' w = (w', c'', Some err)).
Proof.
  unfold visit.
  destruct (LoadComponent (files w) stub) as [e | c] eqn:Hload.
  { split.
    - intros [= <- <-]. by left.
    - intros [[H ->] | [(x & y & H & _) | (x & y & z & H & _)]]; congruence. }
  destruct (LoadConfig (files w) environment c) as [c' [e |]] eqn:Hcfg.
  { split.
    - intros [= <- <-]. right. left. by exists c, c'.
    - intros [[H _] | [(x & y & Hx & Hy & ->) | (x & y & z & Hx & Hy & _)]]; congruence. }
  destruct (componentIteration (PhysicalPath c') c' w) as [[w1 c''] [e |]] eqn:Hcb.
  - split.
    + intros [= <- <-]. right. right. by exists c, c', c''.
    + intros [[H _] | [(x & y & Hx & Hy & _) | (x & y & z & Hx & Hy & Hz)]]; congruence.
  - split; [done |].
    intros [[H _] | [(x & y & Hx & Hy & _) | (x & y & z & Hx & Hy & Hz)]]; congruence.
Qed.

Lemma LoadComponent_missing (fs : gmap string File) (stub : Component) :
  fs !! path_Join [PhysicalPath stub; "component.json"] = None →
  LoadComponent fs stub = inl (NotFound (path_Join [PhysicalPath stub; "component.json"])).
Proof. intros Hnone. unfold LoadComponent. by rewrite Hnone. Qed.

(** C2. Take the loop at any point of a traversal: [stub] is next on the
    queue, [completed] holds the nodes already visited.  If loading the
    descriptor of [stub], loading its overlays or the callback fails with
    [err], then [IterateComponentTree] returns the nil slice together with
    [err], whatever [completed] holds; in particular, when no descriptor
    exists at the physical path of [stub], it returns the nil slice and the
    not-found error for that path.  No answer at all carries both an error
    and a non-empty slice. *)
Theorem IterateComponentTree_fail_fast (startingPath : string) (w0 w1 : World)
    (stub : Component) (queue completed : list Component) :
  reach w0 [rootComponent startingPath] [] w1 (stub :: queue) completed →
  ∃ rounds,
    (∀ w2 err fuel,
       visit w1 stub = (w2, inl err) → (rounds < fuel)%nat →
       IterateComponentTree fuel startingPath w0 = Some (w2, ([], Some err)))
    ∧ (∀ err fuel,
         LoadComponent (files w1) stub = inl err → (rounds < fuel)%nat →
         IterateComponentTree fuel startingPath w0 = Some (w1, ([], Some err)))
    ∧ (∀ c c' err fuel,
         LoadComponent (files w1) stub = inr c →
         LoadConfig (files w1) environment c = (c', Some err) → (rounds < fuel)%nat →
         IterateComponentTree fuel startingPath w0 = Some (w1, ([], Some err)))
    ∧ (∀ c c' c'' w2 err fuel,
         LoadComponent (files w1) stub = inr c →
         LoadConfig (files w1) environment c = (c', None) →
         componentIteration (PhysicalPath c') c' w1 = (w2, c'', Some err) →
         (rounds < fuel)%nat →
         IterateComponentTree fuel startingPath w0 = Some (w2, ([], Some err)))
    ∧ (∀ fuel,
         files w1 !! path_Join [PhysicalPath stub; "component.json"] = None →
         (rounds < fuel)%nat →
         IterateComponentTree fuel startingPath w0 =
           Some (w1, ([], Some (NotFound (path_Join [PhysicalPath stub; "component.json"])))))
    ∧ (∀ fuel w' result err,
         IterateComponentTree fuel startingPath w0 = Some (w', (result, Some err)) →
         result = []).
Proof.
  intros [rounds Hrounds]%reach_iterate. exists rounds.
  assert (∀ w2 err fuel,
            visit w1 stub = (w2, inl err) → (rounds < fuel)%nat →
            IterateComponentTree fuel startingPath w0 = Some (w2, ([], Some err))) as Hfail.
  { intros w2 err fuel Hv Hfuel. unfold IterateComponentTree.
    replace fuel with (rounds + S (fuel - S rounds)) by lia.
    by rewrite Hrounds, iterate_step, Hv. }
  split; [exact Hfail |]. split; [| split; [| split; [| split]]].
  - intros err fuel Hload. apply Hfail, visit_error. by left.
  - intros c c' err fuel Hload Hcfg. apply Hfail, visit_error. right. left. by exists c, c'.
  - intros c c' c'' w2 err fuel Hload Hcfg Hcb. apply Hfail, visit_error.
    right. right. by exists c, c', c''.
  - intros fuel Hnone. apply Hfail, visit_error. left. split; [| done].
    by apply LoadComponent_missing.
  - intros fuel w' result err. apply iterate_error_nil.
Qed.

(** ** Path resolver, loaders, installer *)

(** C5. [RelativePathTo] is a total function of the method, the source and
    the name of the declaration alone: "components/<Name>" when the method
    is "git" (whatever the source), else "<Name>" when there is a source,
    else "./"; with the three examples of the specification. *)
Theorem RelativePathTo_cases :
  (∀ c, RelativePathTo c = relativePathTo (Method c) (Source c) (Name c))
  ∧ (∀ source name, relativePathTo "git" source name = "components/" +:+ name)
  ∧ RelativePathTo (mkComponent "db" "" "git" "" [] "" "" "" "" ComponentConfig.empty "")
      = "components/db"
  ∧ RelativePathTo (mkComponent "cache" "http://x" "" "" [] "" "" "" "" ComponentConfig.empty "")
      = "cache"
  ∧ RelativePathTo (mkComponent "assets" "" "" "" [] "" "" "" "" ComponentConfig.empty "")
      = "./".
Proof.
  split; [| by repeat split].
  intros c. unfold RelativePathTo, relativePathTo.
  destruct (String.eqb_spec (Method c) "git"); [by rewrite decide_True |].
  rewrite decide_False by done.
  destruct (String.eqb_spec (Source c) ""); [by rewrite decide_True |].
  by rewrite decide_False.
Qed.

(** C7. [LoadComponent] succeeds exactly when the file
    [PhysicalPath]/component.json of the stub is there, can be read and
    decodes.  The component it then returns is the decoded descriptor with
    the physical and the logical path of the stub in place of whatever the
    descriptor says, and with, as configuration, the descriptor's with the
    stub's merged into it.  With no file at that path it fails with the
    not-found error for the path, with a file that does not decode it fails
    with the parse error, with one that cannot be read with an I/O error. *)
Theorem LoadComponent_spec (fs : gmap string File) (stub : Component) :
  (∀ bytes decoded,
     fs !! path_Join [PhysicalPath stub; "component.json"] = Some (Data bytes) →
     json_Unmarshal_Component bytes = Some decoded →
     LoadComponent fs stub
       = inr (set_Config (Merge (Config decoded) (Config stub))
                (set_LogicalPath (LogicalPath stub)
                   (set_PhysicalPath (PhysicalPath stub) decoded))))
  ∧ (∀ c, LoadComponent fs stub = inr c →
       PhysicalPath c = PhysicalPath stub
       ∧ LogicalPath c = LogicalPath stub
       ∧ ∃ bytes decoded,
           fs !! path_Join [PhysicalPath stub; "component.json"] = Some (Data bytes)
           ∧ json_Unmarshal_Component bytes = Some decoded
           ∧ Config c = Merge (Config decoded) (Config stub)
           ∧ c = set_Config (Config c)
                   (set_LogicalPath (LogicalPath stub)
                      (set_PhysicalPath (PhysicalPath stub) decoded)))
  ∧ (fs !! path_Join [PhysicalPath stub; "component.json"] = None →
     LoadComponent fs stub
       = inl (NotFound (path_Join [PhysicalPath stub; "component.json"])))
  ∧ (∀ bytes,
       fs !! path_Join [PhysicalPath stub; "component.json"] = Some (Data bytes) →
       json_Unmarshal_Component bytes = None →
       LoadComponent fs stub = inl ParseError)
  ∧ (fs !! path_Join [PhysicalPath stub; "component.json"] = Some Unreadable →
     LoadComponent fs stub
       = inl (IOError (path_Join [PhysicalPath stub; "component.json"]))).
Proof.
  unfold LoadComponent. split; [| split; [| split; [| split]]].
  - by intros bytes decoded -> ->.
  - intros c.
    destruct (fs !! _) as [[| bytes] |]; [done | | done].
    destruct (json_Unmarshal_Component bytes) as [decoded |] eqn:Hdec; [| done].
    intros [= <-]. repeat split. by exists bytes, decoded.
  - by intros ->.
  - by intros bytes -> ->.
  - by intros ->.
Qed.

Lemma MergeConfigFile_overlay (fs : gmap string File) (path : string) (c : Component) :
  MergeConfigFile fs path c =
    match overlay fs path with
    | inl err => (c, Some err)
    | inr o => (merge_overlay o c, None)
    end.
Proof.
  unfold MergeConfigFile, overlay.
  destruct (fs !! path) as [[| bytes] |]; [done | | done].
  by destruct (json_Unmarshal_ComponentConfig bytes).
Qed.

Lemma merge_overlay_PhysicalPath (o : option ComponentConfig.t) (c : Component) :
  PhysicalPath (merge_overlay o c) = PhysicalPath c.
Proof. by destruct o. Qed.

(** C8. [LoadConfig] looks at config/<environment>.json first and at
    config/common.json second, both under [PhysicalPath]: the environment
    overlay is merged into the configuration before the common one.  A file
    that is absent is skipped without error; a file that is there but does
    not decode stops with the parse error, one that cannot be read with an
    I/O error, and the common file is then not merged. *)
Theorem LoadConfig_overlays (fs : gmap string File) (environment' : string) (c : Component) :
  LoadConfig fs environment' c =
    match overlay fs (path_Join [PhysicalPath c; "config"; environment' +:+ ".json"]) with
    | inl err => (c, Some err)
    | inr env_overlay =>
        match overlay fs (path_Join [PhysicalPath c; "config"; "common.json"]) with
        | inl err => (merge_overlay env_overlay c, Some err)
        | inr common_overlay =>
            (merge_overlay common_overlay (merge_overlay env_overlay c), None)
        end
    end
  ∧ (∀ env_bytes common_bytes env_cfg common_cfg,
       fs !! path_Join [PhysicalPath c; "config"; environment' +:+ ".json"]
         = Some (Data env_bytes) →
       fs !! path_Join [PhysicalPath c; "config"; "common.json"] = Some (Data common_bytes) →
       json_Unmarshal_ComponentConfig env_bytes = Some env_cfg →
       json_Unmarshal_ComponentConfig common_bytes = Some common_cfg →
       LoadConfig fs environment' c
         = (set_Config (Merge (Merge (Config c) env_cfg) common_cfg) c, None))
  ∧ (fs !! path_Join [PhysicalPath c; "config"; environment' +:+ ".json"] = None →
     fs !! path_Join [PhysicalPath c; "config"; "common.json"] = None →
     LoadConfig fs environment' c = (c, None)).
Proof.
  assert (LoadConfig fs environment' c =
    match overlay fs (path_Join [PhysicalPath c; "config"; environment' +:+ ".json"]) with
    | inl err => (c, Some err)
    | inr env_overlay =>
        match overlay fs (path_Join [PhysicalPath c; "config"; "common.json"]) with
        | inl err => (merge_overlay env_overlay c, Some err)
        | inr common_overlay =>
            (merge_overlay common_overlay (merge_overlay env_overlay c), None)
        end
    end) as Heq.
  { unfold LoadConfig. rewrite MergeConfigFile_overlay.
    destruct (overlay fs _) as [err | o1]; [done |].
    rewrite MergeConfigFile_overlay, merge_overlay_PhysicalPath.
    by destruct (overlay fs _) as [err | o2]. }
  split; [exact Heq |]. rewrite Heq. unfold overlay. split.
  - intros env_bytes common_bytes env_cfg common_cfg -> -> -> ->. by destruct c.
  - by intros -> ->.
Qed.

Lemma Install_range_run_all (componentPath : string) (subs : list Component) (w : World) :
  Install_range componentPath subs w =
    run_all (flat_map (install_steps componentPath)
               (filter (fun sub => Method sub = "git") subs)) w.
Proof.
  revert w. induction subs as [|sub subs IH]; intros w; [done |].
  cbn [Install_range]. destruct (String.eqb_spec (Method sub) "git") as [Hgit | Hother].
  - rewrite filter_cons_True by done. cbn [flat_map install_steps app run_all].
    unfold and_then.
    destruct (Run _ w) as [w1 [err |]]; [done |].
    destruct (Run _ w1) as [w2 [err |]]; [done |].
    destruct (Run _ w2) as [w3 [err |]]; [done |].
    apply IH.
  - rewrite filter_cons_False by done. apply IH.
Qed.

Lemma run_all_app (pre post : list (list string)) (w : World) :
  run_all (pre ++ post) w =
    match run_all pre w with
    | (w', Some err) => (w', Some err)
    | (w', None) => run_all post w'
    end.
Proof.
  revert w. induction pre as [|argv pre IH]; intros w; [done |].
  cbn [app run_all]. unfold and_then.
  destruct (Run argv w) as [w1 [err |]]; [done |]. apply IH.
Qed.

(** C4 (as amended). [Install] does to the world exactly what running, in
    order and up to the first failure, the commands of the git
    sub-components does: for each immediate sub-component whose method is
    "git", with or without a source, in declaration order, mkdir -p of the
    components directory, rm -rf of the target, git clone of the source into
    the target.  Sub-components with another method contribute no command,
    whatever their source: without a git sub-component the world is left as
    it was.  The first command that fails ends the operation with its
    error. *)
Theorem Install_commands (c : Component) (componentPath : string) (w : World) :
  Install c componentPath w = run_all (install_commands c componentPath) w
  ∧ (∀ argv, argv ∈ install_commands c componentPath ↔
       ∃ sub, sub ∈ Subcomponents c ∧ Method sub = "git"
              ∧ argv ∈ install_steps componentPath sub)
  ∧ (Forall (fun sub => Method sub ≠ "git") (Subcomponents c) →
     install_commands c componentPath = [] ∧ Install c componentPath w = (w, None))
  ∧ (∀ before argv after w1 w2 err,
       install_commands c componentPath = before ++ argv :: after →
       run_all before w = (w1, None) →
       Run argv w1 = (w2, Some err) →
       Install c componentPath w = (w2, Some err)).
Proof.
  assert (Install c componentPath w = run_all (install_commands c componentPath) w) as Heq
    by apply Install_range_run_all.
  split; [exact Heq |]. rewrite Heq. split; [| split].
  - intros argv. unfold install_commands.
    rewrite list_elem_of_In, in_flat_map. split.
    + intros (sub & Hsub & Hargv).
      apply list_elem_of_In, list_elem_of_filter in Hsub as [Hgit Hin].
      exists sub. split; [done |]. split; [done |]. by apply list_elem_of_In.
    + intros (sub & Hin & Hgit & Hargv). exists sub. split.
      * by apply list_elem_of_In, list_elem_of_filter.
      * by apply list_elem_of_In.
  - intros Hnone. unfold install_commands.
    assert (filter (fun sub => Method sub = "git") (Subcomponents c) = []) as ->; [| done].
    induction Hnone as [|sub subs Hsub _ IH]; [done |]. by rewrite filter_cons_False.
  - intros before argv after w1 w2 err -> Hbefore Hfail.
    rewrite run_all_app, Hbefore. cbn [run_all]. unfold and_then. by rewrite Hfail.
Qed.

(** ** What is put on the queue *)

Lemma stubs_elem (stub c : Component) :
  stub ∈ stubs c ↔
    ∃ sub, sub ∈ Subcomponents c ∧ Source sub ≠ "" ∧ stub = componentToQueue c sub.
Proof.
  unfold stubs. rewrite list_elem_of_In, in_map_iff. split.
  - intros (sub & <- & Hin). apply list_elem_of_In, list_elem_of_filter in Hin as [? ?].
    by exists sub.
  - intros (sub & Hin & Hsrc & ->). exists sub. split; [done |].
    by apply list_elem_of_In, list_elem_of_filter.
Qed.

Lemma flat_stubs_elem (stub : Component) (cs : list Component) :
  stub ∈ flat_map stubs cs ↔
    ∃ parent sub, parent ∈ cs ∧ sub ∈ Subcomponents parent ∧ Source sub ≠ ""
                  ∧ stub = componentToQueue parent sub.
Proof.
  rewrite list_elem_of_In, in_flat_map. split.
  - intros (parent & Hin & (sub & ? & ? & ?)%list_elem_of_In%stubs_elem).
    exists parent, sub. by rewrite list_elem_of_In.
  - intros (parent & sub & Hin & ? & ? & ?). exists parent.
    rewrite <- !list_elem_of_In. split; [done |]. apply stubs_elem. by exists sub.
Qed.

Lemma flat_stubs_length (cs : list Component) :
  length (flat_map stubs cs) =
    sum_list_with (fun c => length (filter (fun sub => Source sub ≠ "") (Subcomponents c))) cs.
Proof.
  induction cs as [|c cs IH]; [done |].
  cbn [flat_map sum_list_with]. rewrite length_app, IH. unfold stubs. by rewrite length_map.
Qed.

(** C6. At every point of every traversal, the stubs that have been
    visited and the stubs that are queued are, in order, the root followed
    by the stubs of the completed components, and each of the latter was
    built from a declaration whose source is not empty.  So a declaration
    with an empty source is never put on the queue, and the completed
    components together with the queued stubs count one for the root and
    one per declaration with a source, none for an inline declaration.  The
    inner loop itself appends exactly the stubs of the declarations with a
    source. *)
Theorem inline_never_enqueued (startingPath : string) (w0 w1 : World)
    (queue completed : list Component) :
  reach w0 [rootComponent startingPath] [] w1 queue completed →
  (∃ visited,
     visits w0 visited completed w1
     ∧ visited ++ queue = rootComponent startingPath :: flat_map stubs completed)
  ∧ (∀ stub, stub ∈ flat_map stubs completed →
       ∃ parent sub, parent ∈ completed ∧ sub ∈ Subcomponents parent
                     ∧ Source sub ≠ "" ∧ stub = componentToQueue parent sub)
  ∧ length completed + length queue =
      S (sum_list_with
           (fun c => length (filter (fun sub => Source sub ≠ "") (Subcomponents c)))
           completed)
  ∧ (∀ component pending,
       enqueueSubcomponents component pending =
         pending ++ map (componentToQueue component)
                      (filter (fun sub => Source sub ≠ "") (Subcomponents component))).
Proof.
  intros (visited & cs & Hcs & Hvisits & Hqueue)%reach_trace.
  simpl in Hcs, Hqueue. subst cs. split; [by exists visited |]. split; [| split].
  - intros stub. by rewrite flat_stubs_elem.
  - rewrite <- flat_stubs_length, <- (visits_length _ _ _ _ Hvisits), <- length_app, Hqueue.
    done.
  - intros component pending. apply enqueueSubcomponents_stubs.
Qed.


(** ** No logical path twice *)

Lemma plain_written (n : string) : plain_name n = true → written n.
Proof. intros (? & ? & _ & ?)%plain_name_spec. by repeat split. Qed.

Lemma logical_path_of_inj (a b : list string) :
  Forall (fun n => plain_name n = true) a → Forall (fun n => plain_name n = true) b →
  logical_path_of a = logical_path_of b → a = b.
Proof.
  intros Ha Hb Heq.
  assert (∀ l, l ≠ [] → Forall (fun n => plain_name n = true) l →
               logical_path_of l = join_slash l ∧ join_slash l ≠ "./") as Hne.
  { intros l Hl Hplain. split; [by destruct l |].
    apply join_slash_written_not_root. eapply Forall_impl; [exact Hplain |].
    apply plain_written. }
  destruct (decide (a = [])) as [-> | Hna], (decide (b = [])) as [-> | Hnb]; [done | | |].
  - destruct (Hne b Hnb Hb) as [Hb1 Hb2]. simpl in Heq. congruence.
  - destruct (Hne a Hna Ha) as [Ha1 Ha2]. simpl in Heq. congruence.
  - destruct (Hne a Hna Ha) as [Ha1 _], (Hne b Hnb Hb) as [Hb1 _].
    rewrite Ha1, Hb1 in Heq.
    rewrite <- (split_slash_join a), <- (split_slash_join b), Heq;
      auto using plain_names_no_slash.
Qed.

Lemma prefix_snoc_inv_or {A} (q p : list A) (n : A) :
  q `prefix_of` p ++ [n] → q `prefix_of` p ∨ q = p ++ [n].
Proof.
  intros [k Hk]. destruct (decide (k = [])) as [-> | Hne].
  - right. by rewrite app_nil_r in Hk.
  - left. destruct (exists_last Hne) as (k' & a & ->).
    rewrite app_assoc in Hk. apply app_inj_tail in Hk as [-> _]. by exists k'.
Qed.

(** One round of the loop on the places: the head of the queue is
    completed, the places of its children join the queue. *)
Lemma places_ok_round (settled pending : list (list string)) (p : list string)
    (ns : list string) :
  places_ok settled (p :: pending) →
  NoDup ns → Forall (fun n => plain_name n = true) ns →
  places_ok (settled ++ [p]) (pending ++ map (fun n => p ++ [n]) ns).
Proof.
  intros (Hnodup & Hplain & Hclosed) Hns Hnsp. unfold places_ok.
  replace ((settled ++ [p]) ++ pending ++ map (fun n => p ++ [n]) ns)
    with ((settled ++ p :: pending) ++ map (fun n => p ++ [n]) ns)
    by (by rewrite <- !app_assoc).
  assert (p ∈ settled ++ p :: pending) as Hp by (rewrite elem_of_app; right; left).
  assert (∀ x, x ∈ map (fun n => p ++ [n]) ns ↔ ∃ n, n ∈ ns ∧ x = p ++ [n]) as Hnew.
  { intros x. rewrite list_elem_of_In, in_map_iff. setoid_rewrite list_elem_of_In.
    split; [intros (n & <- & ?) | intros (n & ? & ->)]; by exists n. }
  assert (∀ x n, x ∈ settled ++ p :: pending → p ++ [n] `prefix_of` x → False) as Hbelow.
  { intros x n Hx Hpre.
    assert (x = p) as ->.
    { apply (Hclosed p x); [left | done |]. etrans; [| exact Hpre]. by apply prefix_app_r. }
    by apply prefix_snoc_not in Hpre. }
  split; [| split].
  - apply NoDup_app. split; [done |]. split.
    + intros x Hx (n & _ & ->)%Hnew. by apply (Hbelow _ n Hx).
    + change (map (fun n => p ++ [n]) ns) with ((fun n => p ++ [n]) <$> ns).
      apply NoDup_fmap_2_strong; [| done].
      intros n n' _ _ Heq. by apply app_inj_tail in Heq as [_ ?].
  - apply Forall_app. split; [done |].
    apply Forall_forall. intros x (n & Hn & ->)%Hnew.
    apply Forall_app. split.
    + by apply (proj1 (Forall_forall _ _) Hplain p).
    + apply Forall_singleton. by apply (proj1 (Forall_forall _ _) Hnsp n).
  - intros q x Hq Hx Hpre.
    apply elem_of_app in Hq as [Hq | (n & Hn & ->)%Hnew];
      apply elem_of_app in Hx as [Hx | (n' & Hn' & ->)%Hnew].
    + apply (Hclosed q x); [by right | done..].
    + apply prefix_snoc_inv_or in Hpre as [Hpre | ->]; [| done].
      assert (p = q) as -> by (apply (Hclosed q p); [by right | done..]).
      exfalso. apply NoDup_app in Hnodup as (_ & _ & Hn%NoDup_cons). by destruct Hn.
    + by destruct (Hbelow x n Hx).
    + symmetry. apply prefix_length_eq; [done |]. by rewrite !length_app.
Qed.

Lemma MergeConfigFile_LogicalPath (fs : gmap string File) (path : string) (c : Component) :
  LogicalPath (MergeConfigFile fs path c).1 = LogicalPath c.
Proof.
  unfold MergeConfigFile. destruct (fs !! path) as [[| bytes] |]; [done | | done].
  by destruct (json_Unmarshal_ComponentConfig bytes).
Qed.

Lemma LoadConfig_LogicalPath (fs : gmap string File) (environment' : string) (c : Component) :
  LogicalPath (LoadConfig fs environment' c).1 = LogicalPath c.
Proof.
  unfold LoadConfig.
  pose proof (MergeConfigFile_LogicalPath fs
    (path_Join [PhysicalPath c; "config"; environment' +:+ ".json"]) c) as H1.
  destruct (MergeConfigFile fs _ c) as [c1 [err |]]; [done |]. simpl in H1.
  pose proof (MergeConfigFile_LogicalPath fs
    (path_Join [PhysicalPath c1; "config"; "common.json"]) c1) as H2.
  destruct (MergeConfigFile fs _ c1) as [c2 [err |]]; simpl in *; congruence.
Qed.

Lemma LoadComponent_LogicalPath (fs : gmap string File) (stub c : Component) :
  LoadComponent fs stub = inr c → LogicalPath c = LogicalPath stub.
Proof.
  unfold LoadComponent. destruct (fs !! _) as [[| bytes] |]; [done | | done].
  destruct (json_Unmarshal_Component bytes); [| done]. by intros [= <-].
Qed.

(** A callback that leaves the logical path it is given. *)
Lemma visit_LogicalPath (w w' : World) (stub c : Component) :
  (∀ p c0 w0, LogicalPath (componentIteration p c0 w0).1.2 = LogicalPath c0) →
  visit w stub = (w', inr c) → LogicalPath c = LogicalPath stub.
Proof.
  intros Hcb. unfold visit.
  destruct (LoadComponent (files w) stub) as [e | c1] eqn:Hload; [done |].
  pose proof (LoadConfig_LogicalPath (files w) environment c1) as Hcfg.
  destruct (LoadConfig (files w) environment c1) as [c2 [e |]]; [done |].
  pose proof (Hcb (PhysicalPath c2) c2 w) as Hcall.
  destruct (componentIteration (PhysicalPath c2) c2 w) as [[w2 c3] [e |]]; [done |].
  intros [= <- <-]. simpl in *. apply LoadComponent_LogicalPath in Hload. congruence.
Qed.

Lemma reach_completed (w w' : World) (queue completed queue' completed' : list Component) :
  reach w queue completed w' queue' completed' → ∃ cs, completed' = completed ++ cs.
Proof.
  intros (visited & cs & -> & _)%reach_trace. by exists cs.
Qed.

Lemma reach_places (w w' : World) (queue completed queue' completed' : list Component) :
  reach w queue completed w' queue' completed' →
  (∀ p c0 w0, LogicalPath (componentIteration p c0 w0).1.2 = LogicalPath c0) →
  Forall well_named completed' →
  ∀ settled pending,
    map LogicalPath completed = map logical_path_of settled →
    map LogicalPath queue = map logical_path_of pending →
    places_ok settled pending →
    ∃ settled' pending',
      map LogicalPath completed' = map logical_path_of settled'
      ∧ map LogicalPath queue' = map logical_path_of pending'
      ∧ places_ok settled' pending'.
Proof.
  intros Hreach Hcb.
  induction Hreach
    as [w queue completed | w stub queue completed w1 c w' queue' completed' Hv Hreach IH];
    intros Hnamed settled pending Hdone Hpending Hok.
  - by exists settled, pending.
  - destruct pending as [|p pending]; [done |]. injection Hpending as Hp Hpending.
    pose proof (visit_LogicalPath _ _ _ _ Hcb Hv) as Hc.
    assert (well_named c) as [Hnodup Hplain].
    { destruct (reach_completed _ _ _ _ _ _ Hreach) as [cs ->].
      apply (proj1 (Forall_forall _ _) Hnamed c). rewrite !elem_of_app.
      left. right. apply list_elem_of_singleton. reflexivity. }
    assert (Forall (fun n => plain_name n = true) p) as Hpp.
    { destruct Hok as (_ & Hall & _). apply Forall_app in Hall as [_ Hall].
      by apply Forall_cons in Hall as [? _]. }
    apply (IH Hnamed (settled ++ [p])
             (pending ++ map (fun n => p ++ [n])
                (map Name (filter (fun sub => Source sub ≠ "") (Subcomponents c))))).
    + rewrite !map_app, Hdone. simpl. congruence.
    + rewrite !map_app, Hpending. f_equal. unfold stubs. rewrite !map_map.
      apply map_ext_in. intros sub Hin. cbn [componentToQueue LogicalPath].
      rewrite Hc, Hp. apply path_Join_logical; [done |].
      by apply (proj1 (Forall_forall _ _) Hplain), list_elem_of_In.
    + apply places_ok_round; [done.. |]. apply Forall_forall.
      intros n (sub & <- & Hin)%list_elem_of_In%in_map_iff.
      by apply (proj1 (Forall_forall _ _) Hplain), list_elem_of_In.
Qed.

(** C3 (as amended). Every stub that leaves the queue is loaded and
    dispatched once and gives one completed component, but the engine keeps
    no record of what it has visited: it visits once per declaration, so
    what holds is this.  At every point of every traversal whose callback
    leaves logical paths alone, if the declarations with a source of each
    completed component have plain names, no two the same, then no two of
    the completed components and queued stubs have the same logical path:
    no component is completed twice. *)
Theorem no_logical_path_twice (startingPath : string) (w0 w1 : World)
    (queue completed : list Component) :
  reach w0 [rootComponent startingPath] [] w1 queue completed →
  (∀ p c w, LogicalPath (componentIteration p c w).1.2 = LogicalPath c) →
  Forall well_named completed →
  (∃ visited,
     visits w0 visited completed w1
     ∧ visited ++ queue = rootComponent startingPath :: flat_map stubs completed)
  ∧ NoDup (map LogicalPath (completed ++ queue))
  ∧ NoDup completed.
Proof.
  intros Hreach Hcb Hnamed.
  assert (NoDup (map LogicalPath (completed ++ queue))) as Hnodup.
  { destruct (reach_places _ _ _ _ _ _ Hreach Hcb Hnamed [] [[]])
      as (settled & pending & Hdone & Hpending & Hok & Hplain & _); [done.. | |].
    - repeat split.
      + apply NoDup_singleton.
      + by repeat constructor.
      + by intros p x ->%list_elem_of_singleton ->%list_elem_of_singleton.
    - rewrite map_app, Hdone, Hpending, <- map_app.
      change (map logical_path_of (settled ++ pending))
        with (logical_path_of <$> (settled ++ pending)).
      apply NoDup_fmap_2_strong; [| done].
      intros a b Ha Hb. apply logical_path_of_inj.
      + by apply (proj1 (Forall_forall _ _) Hplain).
      + by apply (proj1 (Forall_forall _ _) Hplain). }
  split; [| split; [done |]].
  - apply reach_trace in Hreach as (visited & cs & Hcs & Hvisits & Hqueue).
    simpl in Hcs, Hqueue. subst cs. by exists visited.
  - rewrite map_app in Hnodup. apply NoDup_app in Hnodup as [Hnodup _].
    change (map LogicalPath completed) with (LogicalPath <$> completed) in Hnodup.
    by apply NoDup_fmap_1 in Hnodup.
Qed.

(** ** Further properties of the loaders *)

Lemma MergeConfigFile_frame (fs : gmap string File) (path : string) (c : Component) :
  (MergeConfigFile fs path c).1 = set_Config (Config (MergeConfigFile fs path c).1) c
  ∧ ((MergeConfigFile fs path c).2 = None
     ∨ (MergeConfigFile fs path c).1 = c
       ∧ ((MergeConfigFile fs path c).2 = Some ParseError
          ∨ (MergeConfigFile fs path c).2 = Some (IOError path))).
Proof.
  unfold MergeConfigFile. destruct (fs !! path) as [[| bytes] |].
  - split; [by destruct c | right; split; [done | by right]].
  - destruct (json_Unmarshal_ComponentConfig bytes).
    + split; [by destruct c | by left].
    + split; [by destruct c | right; split; [done | by left]].
  - split; [by destruct c | by left].
Qed.

(** [LoadConfig] changes nothing of its receiver but the configuration,
    also when it fails after the first overlay has been merged; and it fails
    with a parse error or with the I/O error of one of its two files only: a
    missing overlay is never reported. *)
Theorem LoadConfig_frame (fs : gmap string File) (environment' : string) (c : Component) :
  (LoadConfig fs environment' c).1
    = set_Config (Config (LoadConfig fs environment' c).1) c
  ∧ (LoadConfig fs environment' c).2 ∈
      [ None; Some ParseError;
        Some (IOError (path_Join [PhysicalPath c; "config"; environment' +:+ ".json"]));
        Some (IOError (path_Join [PhysicalPath c; "config"; "common.json"])) ].
Proof.
  unfold LoadConfig.
  destruct (MergeConfigFile_frame fs
              (path_Join [PhysicalPath c; "config"; environment' +:+ ".json"]) c)
    as [Hc1 He1].
  destruct (MergeConfigFile fs _ c) as [c1 [err |]]; simpl in Hc1, He1.
  { destruct He1 as [? | [-> [-> | ->]]]; [done | |]; simpl.
    - split; [by destruct c | rewrite !elem_of_cons; auto].
    - split; [by destruct c | rewrite !elem_of_cons; auto]. }
  destruct (MergeConfigFile_frame fs
              (path_Join [PhysicalPath c1; "config"; "common.json"]) c1) as [Hc2 He2].
  assert (PhysicalPath c1 = PhysicalPath c) as Hpath by (by rewrite Hc1).
  rewrite Hpath in *.
  destruct (MergeConfigFile fs _ c1) as [c2 [err |]]; simpl in Hc2, He2 |- *.
  - destruct He2 as [? | [-> [-> | ->]]]; [done | |].
    + split; [by rewrite Hc1 | rewrite !elem_of_cons; auto].
    + split; [by rewrite Hc1 | rewrite !elem_of_cons; auto].
  - split; [by rewrite Hc2, Hc1 | rewrite !elem_of_cons; auto].
Qed.

(** With the environment "common" the two overlay paths coincide: the file
    config/common.json is read twice and, when it decodes, merged twice. *)
Theorem LoadConfig_common_twice (fs : gmap string File) (c : Component) :
  LoadConfig fs "common" c =
    match overlay fs (path_Join [PhysicalPath c; "config"; "common.json"]) with
    | inl err => (c, Some err)
    | inr None => (c, None)
    | inr (Some cfg) => (set_Config (Merge (Merge (Config c) cfg) cfg) c, None)
    end.
Proof.
  unfold LoadConfig. rewrite MergeConfigFile_overlay.
  change ("common" +:+ ".json") with "common.json".
  destruct (overlay fs _) as [err | [cfg |]] eqn:Hoverlay; [done | |].
  - rewrite MergeConfigFile_overlay, merge_overlay_PhysicalPath, Hoverlay. by destruct c.
  - rewrite MergeConfigFile_overlay. simpl. by rewrite Hoverlay.
Qed.

(** ** Declarations that resolve to themselves *)

Lemma iterate_again (stable : World → Prop) (again : Component → Prop) :
  (∀ w stub, stable w → again stub →
     ∃ w' c, visit w stub = (w', inr c) ∧ stable w' ∧ stubs c ≠ []
             ∧ Forall again (stubs c)) →
  ∀ fuel w queue completed,
    stable w → Forall again queue → queue ≠ [] →
    iterate fuel w queue completed = None.
Proof.
  intros Hagain. induction fuel as [|fuel IH]; intros w queue completed Hw Hqueue Hne.
  - by destruct queue.
  - destruct queue as [|stub queue]; [done |].
    apply Forall_cons in Hqueue as [Hstub Hqueue].
    destruct (Hagain w stub Hw Hstub) as (w' & c & Hv & Hw' & Hsome & Hstubs).
    rewrite iterate_step, Hv. apply IH; [done | by apply Forall_app |].
    intros [_ ?]%app_eq_nil. done.
Qed.

(** The engine does not detect cycles.  If the root stub is one of a kind
    of stubs each of which, visited, completes and queues at least one stub,
    all of that kind again, then [IterateComponentTree] never returns: the
    queue never empties and no visit fails, whatever the fuel. *)
Theorem IterateComponentTree_cycle (stable : World → Prop) (again : Component → Prop)
    (startingPath : string) (w : World) :
  (∀ w stub, stable w → again stub →
     ∃ w' c, visit w stub = (w', inr c) ∧ stable w' ∧ stubs c ≠ []
             ∧ Forall again (stubs c)) →
  stable w → again (rootComponent startingPath) →
  ∀ fuel, IterateComponentTree fuel startingPath w = None.
Proof.
  intros Hagain Hw Hroot fuel. unfold IterateComponentTree.
  apply (iterate_again stable again Hagain); [done | by constructor | done].
Qed.

(** ** Cleaned paths *)

Lemma join_slash_app (a b : list string) :
  a ≠ [] → b ≠ [] → join_slash (a ++ b) = join_slash a +:+ "/" +:+ join_slash b.
Proof.
  intros Ha Hb. induction a as [|e a IH]; [done |].
  destruct a as [|e' a].
  - destruct b; [done |]. reflexivity.
  - change (join_slash ((e :: e' :: a) ++ b))
      with (e +:+ "/" +:+ join_slash ((e' :: a) ++ b)).
    rewrite IH by done.
    change (join_slash (e :: e' :: a)) with (e +:+ "/" +:+ join_slash (e' :: a)).
    by rewrite !append_assoc.
Qed.

Lemma join_slash_not_empty (names : list string) :
  names ≠ [] → Forall (fun n => plain_name n = true) names → join_slash names ≠ "".
Proof.
  intros Hne Hall. destruct names as [|e names]; [done |].
  apply Forall_cons in Hall as [(He & _)%plain_name_spec _].
  destruct e; [done |]. by destruct names.
Qed.

Lemma split_slash_rooted (s : string) : split_slash ("/" +:+ s) = "" :: split_slash s.
Proof. reflexivity. Qed.

(** [path.Clean] from the elements it keeps. *)
Lemma path_Clean_kept (p : string) (kept : list string) :
  p ≠ "" →
  fold_left (clean_element (is_rooted p)) (split_slash p) [] = rev kept →
  path_Clean p = path_of (is_rooted p) kept.
Proof.
  intros Hp Hkept. unfold path_Clean, path_of.
  apply String.eqb_neq in Hp. rewrite Hp, Hkept, rev_involutive. done.
Qed.

Lemma path_Join_extend (rooted : bool) (names more : list string) :
  Forall (fun n => plain_name n = true) names →
  Forall (fun n => plain_name n = true) more → more ≠ [] →
  path_Join [path_of rooted names; join_slash more] = path_of rooted (names ++ more).
Proof.
  intros Hnames Hmore Hne.
  pose proof (join_slash_not_empty more Hne Hmore) as Hjoin.
  assert (Forall (fun n => plain_name n = true) (names ++ more)) as Hall
    by (by apply Forall_app).
  assert (path_of rooted names ≠ "") as Hpath.
  { destruct rooted; [done |]. destruct names as [|e names]; [done |].
    by apply join_slash_not_empty. }
  rewrite path_Join_nonempty by (repeat constructor; done).
  change (join_slash [path_of rooted names; join_slash more])
    with (path_of rooted names +:+ "/" +:+ join_slash more).
  destruct rooted; [| destruct names as [|e names]].
  - change (path_of true names) with ("/" +:+ join_slash names).
    rewrite append_assoc.
    rewrite (path_Clean_kept _ (names ++ more)); [done | done |].
    change (is_rooted ("/" +:+ join_slash names +:+ "/" +:+ join_slash more)) with true.
    rewrite split_slash_rooted. destruct names as [|e names].
    + change (join_slash [] +:+ "/" +:+ join_slash more) with ("/" +:+ join_slash more).
      rewrite split_slash_rooted, split_slash_join by auto using plain_names_no_slash.
      simpl. rewrite clean_elements_plain by done. by rewrite app_nil_r.
    + rewrite <- join_slash_app by done.
      rewrite split_slash_join by (auto using plain_names_no_slash).
      change (fold_left (clean_element true) ("" :: (e :: names) ++ more) [])
        with (fold_left (clean_element true) ((e :: names) ++ more) []).
      rewrite clean_elements_plain by done. by rewrite app_nil_r.
  - change (path_of false []) with ".".
    rewrite (path_Clean_kept _ more); [by destruct more | done |].
    change (is_rooted ("." +:+ "/" +:+ join_slash more)) with false.
    rewrite split_slash_append by done.
    rewrite split_slash_join by auto using plain_names_no_slash.
    change (fold_left (clean_element false) ("." :: more) [])
      with (fold_left (clean_element false) more []).
    rewrite clean_elements_plain by done. by rewrite app_nil_r.
  - change (path_of false (e :: names)) with (join_slash (e :: names)).
    rewrite <- join_slash_app by done.
    rewrite path_Clean_plain by done. reflexivity.
Qed.

Lemma steps_path_of (rooted : bool) (names : list string) :
  Forall (fun n => plain_name n = true) names →
  steps (path_of rooted names) = length names.
Proof.
  intros Hall. unfold steps.
  assert (filter (fun e => plain_name e = true) names = names) as Hkeep.
  { induction Hall as [|n names Hn _ IH]; [done |]. by rewrite filter_cons_True, IH. }
  destruct rooted; [| destruct names as [|e names]].
  - change (path_of true names) with ("/" +:+ join_slash names).
    rewrite split_slash_rooted. rewrite filter_cons_False by done.
    destruct names as [|e names]; [done |].
    rewrite split_slash_join by auto using plain_names_no_slash. by rewrite Hkeep.
  - reflexivity.
  - change (path_of false (e :: names)) with (join_slash (e :: names)).
    rewrite split_slash_join by auto using plain_names_no_slash. by rewrite Hkeep.
Qed.

(** Where a declaration with a plain name lands, relative to its parent. *)
Lemma RelativePathTo_plain (sub : Component) :
  plain_name (Name sub) = true → Method sub = "git" ∨ Source sub ≠ "" →
  ∃ more, RelativePathTo sub = join_slash more
          ∧ Forall (fun n => plain_name n = true) more ∧ more ≠ []
          ∧ (Method sub = "git" → more = ["components"; Name sub])
          ∧ (Method sub ≠ "git" → more = [Name sub]).
Proof.
  intros Hname Hkind. unfold RelativePathTo.
  destruct (String.eqb_spec (Method sub) "git") as [Hgit | Hother].
  - exists ["components"; Name sub]. repeat split; [by repeat constructor | done..].
  - destruct Hkind as [? | Hsource]; [done |].
    apply String.eqb_neq in Hsource. rewrite Hsource.
    exists [Name sub]. repeat split; [by repeat constructor | done..].
Qed.

Lemma stub_PhysicalPath (rooted : bool) (names : list string) (c sub : Component) :
  Forall (fun n => plain_name n = true) names →
  PhysicalPath c = path_of rooted names →
  plain_name (Name sub) = true → Method sub = "git" ∨ Source sub ≠ "" →
  ∃ more, PhysicalPath (componentToQueue c sub) = path_of rooted (names ++ more)
          ∧ Forall (fun n => plain_name n = true) (names ++ more) ∧ more ≠ []
          ∧ (Method sub = "git" → more = ["components"; Name sub])
          ∧ (Method sub ≠ "git" → more = [Name sub]).
Proof.
  intros Hnames Hc Hname Hkind.
  destruct (RelativePathTo_plain sub Hname Hkind) as (more & Hrel & Hmore & Hne & Hgit & Hother).
  exists more. cbn [componentToQueue PhysicalPath]. rewrite Hc, Hrel.
  split; [by apply path_Join_extend |]. split; [by apply Forall_app |]. done.
Qed.

(** [Install] and the traversal agree on where a git sub-component lives.
    For a component at a cleaned path and a git declaration with a plain
    name, [Install] removes and clones into <path>/components/<Name>, the
    physical path the traversal gives the stub of that declaration, and the
    descriptor of the stub is read from component.json right inside it. *)
Theorem Install_target (rooted : bool) (names : list string) (c sub : Component) :
  Forall (fun n => plain_name n = true) names →
  PhysicalPath c = path_of rooted names →
  plain_name (Name sub) = true → Method sub = "git" →
  install_steps (PhysicalPath c) sub
    = [ ["mkdir"; "-p"; PhysicalPath c +:+ "/components"];
        ["rm"; "-rf"; path_of rooted (names ++ ["components"; Name sub])];
        ["git"; "clone"; Source sub; path_of rooted (names ++ ["components"; Name sub])] ]
  ∧ PhysicalPath (componentToQueue c sub)
    = path_of rooted (names ++ ["components"; Name sub])
  ∧ path_Join [PhysicalPath (componentToQueue c sub); "component.json"]
    = path_of rooted (names ++ ["components"; Name sub; "component.json"]).
Proof.
  intros Hnames Hc Hname Hgit.
  destruct (stub_PhysicalPath rooted names c sub Hnames Hc Hname (or_introl Hgit))
    as (more & Hstub & Hall & _ & Hmore & _).
  rewrite (Hmore Hgit) in Hstub, Hall.
  assert (path_Join [PhysicalPath c; RelativePathTo sub]
          = path_of rooted (names ++ ["components"; Name sub])) as Htarget by exact Hstub.
  split; [| split; [exact Hstub |]].
  - unfold install_steps. by rewrite Htarget.
  - rewrite Hstub.
    change "component.json" with (join_slash ["component.json"]).
    rewrite path_Join_extend by (done || by repeat constructor).
    by rewrite <- app_assoc.
Qed.

(** ** Termination on plain names *)

Lemma LoadConfig_receiver (fs : gmap string File) (environment' : string) (c : Component) :
  (LoadConfig fs environment' c).1
    = set_Config (Config (LoadConfig fs environment' c).1) c.
Proof.
  unfold LoadConfig.
  destruct (MergeConfigFile_frame fs
              (path_Join [PhysicalPath c; "config"; environment' +:+ ".json"]) c)
    as [Hc1 _].
  destruct (MergeConfigFile fs _ c) as [c1 [err |]]; simpl in Hc1; [done |].
  destruct (MergeConfigFile_frame fs
              (path_Join [PhysicalPath c1; "config"; "common.json"]) c1) as [Hc2 _].
  destruct (MergeConfigFile fs _ c1) as [c2 [err |]]; simpl in Hc2 |- *;
    by rewrite Hc2, Hc1.
Qed.

(** What a successful visit has read, when the callback leaves the physical
    path and the declarations of the component alone. *)
Lemma visit_descriptor (w w' : World) (stub c : Component) :
  (∀ p c0 w0,
     PhysicalPath (componentIteration p c0 w0).1.2 = PhysicalPath c0
     ∧ Subcomponents (componentIteration p c0 w0).1.2 = Subcomponents c0) →
  visit w stub = (w', inr c) →
  ∃ bytes decoded c0,
    files w !! path_Join [PhysicalPath stub; "component.json"] = Some (Data bytes)
    ∧ json_Unmarshal_Component bytes = Some decoded
    ∧ Subcomponents c = Subcomponents decoded
    ∧ PhysicalPath c = PhysicalPath stub
    ∧ w' = (componentIteration (PhysicalPath stub) c0 w).1.1.
Proof.
  intros Hcb. unfold visit, LoadComponent.
  destruct (files w !! _) as [[| bytes] |] eqn:Hfile; [done | | done].
  destruct (json_Unmarshal_Component bytes) as [decoded |] eqn:Hdec; [| done].
  match goal with |- context [LoadConfig ?fs ?e ?x] =>
    pose proof (LoadConfig_receiver fs e x) as Hcfg;
    destruct (LoadConfig fs e x) as [c1 [err |]] end; [done |].
  simpl in Hcfg.
  assert (PhysicalPath c1 = PhysicalPath stub ∧ Subcomponents c1 = Subcomponents decoded)
    as [Hp Hs] by (by rewrite Hcfg).
  destruct (Hcb (PhysicalPath c1) c1 w) as [Hp' Hs'].
  destruct (componentIteration (PhysicalPath c1) c1 w) as [[w2 c2] [err |]] eqn:Hcall;
    [done |].
  intros [= <- <-]. simpl in Hp', Hs'. exists bytes, decoded, c1.
  rewrite <- Hp, Hcall. repeat split; congruence.
Qed.

Lemma deepest_bound (fs : gmap string File) (path : string) (file : File) :
  fs !! path = Some file → (steps path ≤ deepest fs)%nat.
Proof.
  unfold deepest. revert path file.
  apply (map_fold_weak_ind
           (fun d (m : gmap string File) =>
              ∀ path file, m !! path = Some file → (steps path ≤ d)%nat)).
  - intros path file. by rewrite lookup_empty.
  - intros k x m d _ IH path file. rewrite lookup_insert.
    destruct (decide (k = path)) as [-> | Hne].
    + intros _. lia.
    + intros Hin. specialize (IH _ _ Hin). lia.
Qed.

Lemma visits_bound_mono (breadth d d' : nat) :
  (d ≤ d')%nat → (visits_bound breadth d ≤ visits_bound breadth d')%nat.
Proof.
  revert d'. induction d as [|d IH]; intros d' Hle.
  - destruct d'; simpl; lia.
  - destruct d' as [|d']; [lia |]. simpl.
    pose proof (IH d' ltac:(lia)) as Hd.
    apply (Nat.mul_le_mono_l _ _ breadth) in Hd. lia.
Qed.

Lemma sum_list_with_bound {A} (f : A → nat) (l : list A) (m : nat) :
  Forall (fun x => (f x ≤ m)%nat) l → (sum_list_with f l ≤ length l * m)%nat.
Proof. induction 1 as [|x l Hx _ IH]; simpl; lia. Qed.

Section Termination.

Variable stable : World → Prop.
Variable disk : gmap string File.
Variable breadth : nat.
Variable rooted : bool.

Hypothesis stable_files : ∀ w, stable w → files w = disk.
Hypothesis stable_callback : ∀ p c w, stable w → stable (componentIteration p c w).1.1.
Hypothesis callback_keeps : ∀ p c w,
  PhysicalPath (componentIteration p c w).1.2 = PhysicalPath c
  ∧ Subcomponents (componentIteration p c w).1.2 = Subcomponents c.
Hypothesis descriptors_plain : ∀ path bytes c,
  disk !! path = Some (Data bytes) → json_Unmarshal_Component bytes = Some c →
  Forall (fun sub => plain_name (Name sub) = true)
    (filter (fun sub => Source sub ≠ "") (Subcomponents c))
  ∧ (length (filter (fun sub => Source sub ≠ "") (Subcomponents c)) ≤ breadth)%nat.

Lemma visit_descends (w w' : World) (stub c : Component) (names : list string) :
  stable w →
  Forall (fun n => plain_name n = true) names →
  PhysicalPath stub = path_of rooted names →
  visit w stub = (w', inr c) →
  stable w'
  ∧ (length names < deepest disk)%nat
  ∧ (length (stubs c) ≤ breadth)%nat
  ∧ Forall (fun s => ∃ names', Forall (fun n => plain_name n = true) names'
                               ∧ PhysicalPath s = path_of rooted names'
                               ∧ (length names < length names')%nat) (stubs c).
Proof.
  intros Hw Hnames Hstub Hv.
  destruct (visit_descriptor w w' stub c callback_keeps Hv)
    as (bytes & decoded & c0 & Hfile & Hdec & Hsubs & Hpath & ->).
  rewrite (stable_files w Hw) in Hfile.
  destruct (descriptors_plain _ _ _ Hfile Hdec) as [Hplain Hcount].
  split; [by apply stable_callback |]. split; [| split].
  - apply deepest_bound in Hfile. revert Hfile. rewrite Hstub.
    change "component.json" with (join_slash ["component.json"]).
    rewrite path_Join_extend by (done || by repeat constructor).
    rewrite steps_path_of by (apply Forall_app; split; [done | by repeat constructor]).
    rewrite length_app. simpl. lia.
  - unfold stubs. by rewrite length_map, Hsubs.
  - unfold stubs. rewrite Hsubs. apply Forall_forall. intros s Hin.
    apply list_elem_of_In, in_map_iff in Hin as (sub & <- & Hin).
    apply list_elem_of_In in Hin.
    pose proof (proj1 (Forall_forall _ _) Hplain sub Hin) as Hname.
    apply list_elem_of_filter in Hin as [Hsource _].
    destruct (stub_PhysicalPath rooted names c sub Hnames) as (more & Hs & Hall & Hne & _);
      [congruence | done | by right |].
    exists (names ++ more). split; [done |]. split; [done |].
    rewrite length_app. destruct more; [done | simpl; lia].
Qed.

Lemma iterate_returns (fuel : nat) (w : World) (queue completed : list Component) :
  stable w →
  Forall (fun s => ∃ names, Forall (fun n => plain_name n = true) names
                            ∧ PhysicalPath s = path_of rooted names) queue →
  (sum_list_with
     (fun s => visits_bound breadth (deepest disk - steps (PhysicalPath s))) queue
   ≤ fuel)%nat →
  is_Some (iterate fuel w queue completed).
Proof.
  revert w queue completed.
  induction fuel as [|fuel IH]; intros w queue completed Hw Hqueue Hfuel.
  - destruct queue as [|stub queue]; [by eexists |].
    simpl in Hfuel. destruct (deepest disk - _)%nat; simpl in Hfuel; lia.
  - destruct queue as [|stub queue]; [by eexists |].
    apply Forall_cons in Hqueue as [(names & Hnames & Hstub) Hqueue].
    rewrite iterate_step. destruct (visit w stub) as [w' [err | c]] eqn:Hv; [by eexists |].
    destruct (visit_descends w w' stub c names Hw Hnames Hstub Hv)
      as (Hw' & Hdeep & Hcount & Hbelow).
    apply IH; [done | |].
    + apply Forall_app. split; [done |].
      eapply Forall_impl; [exact Hbelow |]. intros s (names' & ? & ? & _). by exists names'.
    + rewrite sum_list_with_app. simpl in Hfuel.
      rewrite Hstub, steps_path_of in Hfuel by done.
      destruct (deepest disk - length names)%nat as [|room] eqn:Hroom; [lia |].
      simpl in Hfuel.
      assert (sum_list_with
                (fun s => visits_bound breadth (deepest disk - steps (PhysicalPath s)))
                (stubs c) ≤ length (stubs c) * visits_bound breadth room)%nat as Hsum.
      { apply sum_list_with_bound. eapply Forall_impl; [exact Hbelow |].
        intros s (names' & Hplain & -> & Hlonger). rewrite steps_path_of by done.
        apply visits_bound_mono. lia. }
      assert (length (stubs c) * visits_bound breadth room
              ≤ breadth * visits_bound breadth room)%nat
        by (apply Nat.mul_le_mono_r; lia).
      lia.
Qed.

(** With plain names on a disk that stays as it is, the traversal always
    returns.  Take a cleaned starting path, a world whose files are [disk]
    and stay so under the callback, a callback that keeps the physical path
    and the declarations of the components, and descriptors on [disk] whose
    declarations with a source have plain names, at most [breadth] of them
    each.  Then [IterateComponentTree] gives an answer (the completed
    components, or an error) for every fuel from a bound on: each stub lies
    one directory or more below its parent, and no descriptor lies deeper
    than the deepest path of [disk]. *)
Theorem IterateComponentTree_returns (names : list string) (w : World) (fuel : nat) :
  Forall (fun n => plain_name n = true) names →
  stable w →
  (visits_bound breadth (deepest disk - length names) ≤ fuel)%nat →
  is_Some (IterateComponentTree fuel (path_of rooted names) w).
Proof.
  intros Hnames Hw Hfuel. unfold IterateComponentTree.
  apply iterate_returns; [done | |].
  - constructor; [| done]. by exists names.
  - simpl. rewrite steps_path_of by done. lia.
Qed.

End Termination.

End Core.

(** ** The merge engine of the specification *)

(** C9. In the merge engine as the specification describes it, under either
    precedence policy, the configuration without entries is neutral on both
    sides: merging it into [X] gives [X], merging [X] into it gives [X].
    The configuration of the root stub of the traversal is that
    configuration, so the root completes with the configuration of its
    descriptor unchanged. *)
Theorem merge_empty_identity (policy : MergeModel.Policy) (X : ComponentConfig.t) :
  MergeModel.merge policy X ComponentConfig.empty = X
  ∧ MergeModel.merge policy ComponentConfig.empty X = X
  ∧ (∀ startingPath, Config (rootComponent startingPath) = ComponentConfig.empty)
  ∧ (∀ decode fs startingPath c,
       LoadComponent (MergeModel.merge policy) decode fs (rootComponent startingPath) = inr c →
       ∃ bytes decoded, decode bytes = Some decoded ∧ Config c = Config decoded).
Proof.
  assert (∀ Y, MergeModel.merge policy Y ComponentConfig.empty = Y) as Hright.
  { intros [config subs]. simpl. f_equal.
    - destruct policy; [apply (left_id_L ∅ (∪)) | apply (right_id_L ∅ (∪))].
    - apply (right_id_L ∅ (union_with _)). }
  split; [apply Hright |]. split; [| split; [done |]].
  - destruct X as [config subs]. simpl. f_equal.
    + destruct policy; [apply (right_id_L ∅ (∪)) | apply (left_id_L ∅ (∪))].
    + apply (left_id_L ∅ (union_with _)).
  - intros decode fs startingPath c. unfold LoadComponent.
    destruct (fs !! _) as [[| bytes] |]; [done | | done].
    destruct (decode bytes) as [decoded |] eqn:Hdec; [| done].
    intros [= <-]. exists bytes, decoded. split; [done |]. simpl. apply Hright.
Qed.

(** ** What the callback is called with *)

Section Dispatch.

Variable Merge : ComponentConfig.t → ComponentConfig.t → ComponentConfig.t.
Variable json_Unmarshal_Component : string → option Component.
Variable json_Unmarshal_ComponentConfig : string → option ComponentConfig.t.
Context {World : Type}.
Variable files : World → gmap string File.
Variable environment : string.

Lemma logged_call (callback : @ComponentIteration World) (path : string) (c : Component)
    (w : World) (log : list (string * Component)) :
  logged callback path c (w, log) =
    match callback path c w with
    | (w', c', err) => ((w', log ++ [(path, c)]), c', err)
    end.
Proof. reflexivity. Qed.

Lemma visit_call (callback : @ComponentIteration World) (w w' : World) (stub c : Component) :
  visit Merge json_Unmarshal_Component json_Unmarshal_ComponentConfig files environment
    callback w stub = (w', inr c) →
  ∃ loaded,
    LoadComponent Merge json_Unmarshal_Component (files w) stub = inr loaded
    ∧ PhysicalPath (LoadConfig Merge json_Unmarshal_ComponentConfig (files w)
                      environment loaded).1 = PhysicalPath stub
    ∧ LogicalPath (LoadConfig Merge json_Unmarshal_ComponentConfig (files w)
                     environment loaded).1 = LogicalPath stub
    ∧ (LoadConfig Merge json_Unmarshal_ComponentConfig (files w) environment loaded).2 = None
    ∧ callback (PhysicalPath stub)
        (LoadConfig Merge json_Unmarshal_ComponentConfig (files w) environment loaded).1 w
      = (w', c, None).
Proof.
  unfold visit.
  destruct (LoadComponent Merge json_Unmarshal_Component (files w) stub)
    as [err | loaded] eqn:Hload; [done |].
  pose proof (LoadConfig_receiver Merge json_Unmarshal_ComponentConfig (files w)
                environment loaded) as Hcfg.
  destruct (LoadConfig Merge json_Unmarshal_ComponentConfig (files w) environment loaded)
    as [c1 [err |]] eqn:Hoverlays; [done |].
  simpl in Hcfg.
  assert (PhysicalPath loaded = PhysicalPath stub ∧ LogicalPath loaded = LogicalPath stub)
    as [Hp Hl].
  { revert Hload. unfold LoadComponent. destruct (files w !! _) as [[| bytes] |]; [done | | done].
    destruct (json_Unmarshal_Component bytes); [| done]. by intros [= <-]. }
  assert (PhysicalPath c1 = PhysicalPath stub ∧ LogicalPath c1 = LogicalPath stub)
    as [Hp1 Hl1] by (by rewrite Hcfg).
  destruct (callback (PhysicalPath c1) c1 w) as [[w2 c2] [err |]] eqn:Hcall; [done |].
  intros [= <- <-]. exists loaded. rewrite Hoverlays. simpl. by rewrite <- Hp1.
Qed.

(** The callback is called once for each completed component, in the order
    of completion.  Run with any callback and, beside it, with the same
    callback keeping the list of its calls: the answers are the same, and
    the calls added are one per stub visited (the root, then the stubs of the
    completed components), each with the physical path of its stub and a
    component that carries the paths of the stub, each returning the
    completed component at the same place of the result. *)
Theorem callback_calls (callback : @ComponentIteration World) (fuel : nat)
    (startingPath : string) (w w' : World) (result : list Component)
    (log : list (string * Component)) :
  IterateComponentTree Merge json_Unmarshal_Component json_Unmarshal_ComponentConfig
    files environment callback fuel startingPath w = Some (w', (result, None)) →
  ∃ calls,
    IterateComponentTree Merge json_Unmarshal_Component json_Unmarshal_ComponentConfig
      (fun wl => files wl.1) environment (logged callback) fuel startingPath (w, log)
      = Some ((w', log ++ calls), (result, None))
    ∧ Forall2 (fun stub call =>
                 call.1 = PhysicalPath stub
                 ∧ PhysicalPath call.2 = PhysicalPath stub
                 ∧ LogicalPath call.2 = LogicalPath stub)
        (rootComponent startingPath :: flat_map stubs result) calls
    ∧ Forall2 (fun call c => ∃ w1 w2, callback call.1 call.2 w1 = (w2, c, None))
        calls result.
Proof.
  unfold IterateComponentTree.
  assert (∀ fuel w log queue completed,
    iterate Merge json_Unmarshal_Component json_Unmarshal_ComponentConfig
      files environment callback fuel w queue completed = Some (w', (result, None)) →
    ∃ calls cs,
      iterate Merge json_Unmarshal_Component json_Unmarshal_ComponentConfig
        (fun wl => files wl.1) environment (logged callback) fuel (w, log) queue completed
        = Some ((w', log ++ calls), (result, None))
      ∧ result = completed ++ cs
      ∧ Forall2 (fun stub call =>
                   call.1 = PhysicalPath stub
                   ∧ PhysicalPath call.2 = PhysicalPath stub
                   ∧ LogicalPath call.2 = LogicalPath stub)
          (queue ++ flat_map stubs cs) calls
      ∧ Forall2 (fun call c => ∃ w1 w2, callback call.1 call.2 w1 = (w2, c, None))
          calls cs) as Hloop.
  { clear fuel w log. induction fuel as [|fuel IH]; intros w log queue completed.
    - destruct queue; [| done]. intros [= <- <-]. exists [], [].
      rewrite !app_nil_r. repeat split; constructor.
    - destruct queue as [|stub queue].
      { intros [= <- <-]. exists [], []. rewrite !app_nil_r. repeat split; constructor. }
      rewrite iterate_step.
      destruct (visit Merge json_Unmarshal_Component json_Unmarshal_ComponentConfig files
                  environment callback w stub) as [w1 [err | c]] eqn:Hv; [done |].
      intros Hrun.
      destruct (visit_call callback w w1 stub c Hv) as (loaded & Hload & Hp & Hl & Hok & Hcall).
      destruct (IH w1 (log ++ [(PhysicalPath stub,
                  (LoadConfig Merge json_Unmarshal_ComponentConfig (files w)
                     environment loaded).1)]) _ _ Hrun)
        as (calls & cs & Hlogged & -> & Hstubs & Hcalls).
      exists ((PhysicalPath stub,
               (LoadConfig Merge json_Unmarshal_ComponentConfig (files w)
                  environment loaded).1) :: calls), (c :: cs).
      split; [| split; [by rewrite <- app_assoc | split]].
      + rewrite iterate_step. unfold visit. cbn [fst]. rewrite Hload.
        destruct (LoadConfig Merge json_Unmarshal_ComponentConfig (files w)
                    environment loaded) as [c1 [err |]] eqn:Hcfg; [done |].
        cbn [fst snd] in Hp, Hcall, Hlogged. rewrite Hp, logged_call, Hcall.
        rewrite Hlogged. by rewrite <- app_assoc.
      + cbn [flat_map app]. constructor; [done |]. by rewrite <- app_assoc in Hstubs.
      + constructor; [| done]. by exists w, w1. }
  intros Hrun. destruct (Hloop fuel w log _ _ Hrun) as (calls & cs & Hlogged & Hcs & H1 & H2).
  simpl in Hcs. subst cs. by exists calls.
Qed.

End Dispatch.

(** ** Installing while traversing *)

Section Installing.

Variable Merge : ComponentConfig.t → ComponentConfig.t → ComponentConfig.t.
Variable json_Unmarshal_Component : string → option Component.
Variable json_Unmarshal_ComponentConfig : string → option ComponentConfig.t.
Context {World : Type}.
Variable files : World → gmap string File.
Variable Run : list string → World → World * option error.
Variable environment : string.

Lemma visit_installing (w w' : World) (stub c : Component) :
  visit Merge json_Unmarshal_Component json_Unmarshal_ComponentConfig files environment
    (installing Run) w stub = (w', inr c) →
  PhysicalPath c = PhysicalPath stub
  ∧ run_all Run (install_commands c (PhysicalPath c)) w = (w', None).
Proof.
  intros (loaded & _ & Hp & _ & _ & Hcall)%visit_call.
  unfold installing in Hcall.
  destruct (Install Run _ (PhysicalPath stub) w) as [w2 err] eqn:Hinstall.
  injection Hcall as -> <- ->. split; [done |].
  rewrite Hp. unfold Install in Hinstall. by rewrite Install_range_run_all in Hinstall.
Qed.

(** With [Install] as the callback, a traversal that ends well has run, in
    all and in this order, the install commands of the completed components,
    each under its own physical path, none of them failing: the
    sub-components of the root are fetched before the root's children are
    loaded, and so on level by level. *)
Theorem install_while_traversing (fuel : nat) (startingPath : string) (w w' : World)
    (result : list Component) :
  IterateComponentTree Merge json_Unmarshal_Component json_Unmarshal_ComponentConfig
    files environment (installing Run) fuel startingPath w = Some (w', (result, None)) →
  run_all Run (flat_map (fun c => install_commands c (PhysicalPath c)) result) w
    = (w', None).
Proof.
  unfold IterateComponentTree.
  assert (∀ fuel w queue completed,
    iterate Merge json_Unmarshal_Component json_Unmarshal_ComponentConfig
      files environment (installing Run) fuel w queue completed
      = Some (w', (result, None)) →
    ∃ cs, result = completed ++ cs
          ∧ run_all Run (flat_map (fun c => install_commands c (PhysicalPath c)) cs) w
            = (w', None)) as Hloop.
  { clear fuel w. induction fuel as [|fuel IH]; intros w queue completed.
    - destruct queue; [| done]. intros [= <- <-]. exists []. by rewrite app_nil_r.
    - destruct queue as [|stub queue].
      { intros [= <- <-]. exists []. by rewrite app_nil_r. }
      rewrite iterate_step.
      destruct (visit Merge json_Unmarshal_Component json_Unmarshal_ComponentConfig files
                  environment (installing Run) w stub) as [w1 [err | c]] eqn:Hv; [done |].
      intros (cs & -> & Hrest)%IH. exists (c :: cs). split; [by rewrite <- app_assoc |].
      destruct (visit_installing w w1 stub c Hv) as [_ Hc].
      cbn [flat_map]. by rewrite run_all_app, Hc. }
  intros Hrun. destruct (Hloop fuel w _ _ Hrun) as (cs & Hcs & Hall).
  simpl in Hcs. by subst cs.
Qed.

(** [Install] looks at the method, the source and the name of the immediate
    sub-components and at nothing else: two components whose declarations
    agree on these are installed alike, whatever the declarations declare
    below themselves. *)
Theorem Install_immediate (c c' : Component) (componentPath : string) (w : World) :
  map (fun sub => (Method sub, Source sub, Name sub)) (Subcomponents c)
    = map (fun sub => (Method sub, Source sub, Name sub)) (Subcomponents c') →
  Install Run c componentPath w = Install Run c' componentPath w.
Proof.
  unfold Install. rewrite !Install_range_run_all.
  generalize (Subcomponents c) (Subcomponents c'). intros subs subs' Heq. f_equal.
  revert subs' Heq. induction subs as [|sub subs IH]; intros [|sub' subs'] Heq;
    try done.
  injection Heq as Hmethod Hsource Hname Hrest.
  destruct (decide (Method sub = "git")) as [Hgit | Hother].
  - rewrite !filter_cons_True by congruence. cbn [flat_map]. f_equal; [| by apply IH].
    unfold install_steps, RelativePathTo. by rewrite Hmethod, Hsource, Hname.
  - rewrite !filter_cons_False by congruence. by apply IH.
Qed.

End Installing.

(** ** The sample deployments, run *)

Local Notation "'overlay_wins'" := (MergeModel.merge MergeModel.OverlayWins).
Local Notation "'fill_gaps'" := (MergeModel.merge MergeModel.FillGaps).
Local Notation "'traverse'" :=
  (IterateComponentTree overlay_wins Sample.json_Unmarshal_Component
     Sample.json_Unmarshal_ComponentConfig Sample.fs "production" Sample.record_visit).
Local Notation "'shop_stable'" := (fun w : Sample.World => Sample.fs w = Sample.shop_files).

Example path_Clean_examples :
  map path_Clean
    [ "abc//def//ghi"; "abc/def/../../.."; "/../abc"; "abc/./../def"; "../../abc";
      "/"; "./"; ""; "abc/"; "abc/def/../ghi/../jkl" ]
  = [ "abc/def/ghi"; ".."; "/abc"; "def"; "../../abc"; "/"; "."; "."; "abc"; "abc/jkl" ].
Proof. reflexivity. Qed.

Example path_Join_examples :
  map path_Join
    [ ["a"; "b"]; ["a"; ""]; [""; "b"]; [""; ""]; ["./"; "web"]; ["/repo"; "components/web"];
      ["/repo"; "./"]; ["/repo"; "config"; "production.json"] ]
  = [ "a/b"; "a"; "b"; ""; "web"; "/repo/components/web"; "/repo";
      "/repo/config/production.json" ].
Proof. reflexivity. Qed.

Example shop_traversal :
  traverse 4 "/repo" (Sample.start Sample.shop_files)
  = Some (Sample.shop_done,
          ([Sample.shop_root; Sample.shop_web; Sample.shop_db; Sample.shop_api], None)).
Proof. vm_compute. reflexivity. Qed.

(** Breadth first: [db] comes before [api], which lies below [web]. *)
Example shop_orders :
  breadth_first Sample.shop_tree
    = [Sample.shop_root; Sample.shop_web; Sample.shop_db; Sample.shop_api]
  ∧ nodes Sample.shop_tree
    = [Sample.shop_root; Sample.shop_web; Sample.shop_api; Sample.shop_db].
Proof. split; reflexivity. Qed.

Example shop_out_of_fuel :
  traverse 3 "/repo" (Sample.start Sample.shop_files) = None.
Proof. vm_compute. reflexivity. Qed.

(** The scenario of the specification: [web] is declared and not there. *)
Example missing_web :
  traverse 2 "/repo" (Sample.start Sample.app_files)
  = Some (Sample.mkWorld Sample.app_files ["/repo"] [],
          ([], Some (NotFound "/repo/components/web/component.json"))).
Proof. vm_compute. reflexivity. Qed.

(** The overlays of the specification: which port wins depends on the
    policy of the merge engine alone. *)
Example shop_overlays :
  LoadConfig overlay_wins Sample.json_Unmarshal_ComponentConfig Sample.shop_files "production"
    (Sample.resolved "shop" [] "/repo" "./" ComponentConfig.empty)
  = (Sample.resolved "shop" [] "/repo" "./" Sample.common, None)
  ∧ LoadConfig fill_gaps Sample.json_Unmarshal_ComponentConfig Sample.shop_files "production"
      (Sample.resolved "shop" [] "/repo" "./" ComponentConfig.empty)
    = (Sample.resolved "shop" [] "/repo" "./"
         (ComponentConfig.mk {[ "port" := VNumber "80"; "debug" := VBool false ]} ∅), None).
Proof. split; vm_compute; reflexivity. Qed.

Example broken_overlays :
  LoadConfig overlay_wins Sample.json_Unmarshal_ComponentConfig Sample.broken_files "production"
    (Sample.resolved "db" [] "/repo" "./" ComponentConfig.empty)
  = (Sample.resolved "db" [] "/repo" "./" ComponentConfig.empty, Some ParseError)
  ∧ LoadConfig overlay_wins Sample.json_Unmarshal_ComponentConfig Sample.broken_files "staging"
      (Sample.resolved "db" [] "/repo" "./" ComponentConfig.empty)
    = (Sample.resolved "db" [] "/repo" "./" ComponentConfig.empty,
       Some (IOError "/repo/config/common.json")).
Proof. split; vm_compute; reflexivity. Qed.

Lemma shop_unfolds :
  Unfolds overlay_wins Sample.json_Unmarshal_Component
    Sample.json_Unmarshal_ComponentConfig Sample.fs "production" Sample.record_visit
    shop_stable (rootComponent "/repo") Sample.shop_tree.
Proof.
  assert (∀ stub c,
    (∀ seen commands,
       visit overlay_wins Sample.json_Unmarshal_Component
         Sample.json_Unmarshal_ComponentConfig Sample.fs "production" Sample.record_visit
         (Sample.mkWorld Sample.shop_files seen commands) stub
       = (Sample.mkWorld Sample.shop_files (seen ++ [PhysicalPath c]) commands, inr c)) →
    ∀ w, Sample.fs w = Sample.shop_files →
      ∃ w', visit overlay_wins Sample.json_Unmarshal_Component
              Sample.json_Unmarshal_ComponentConfig Sample.fs "production"
              Sample.record_visit w stub = (w', inr c)
            ∧ Sample.fs w' = Sample.shop_files) as Hnode.
  { intros stub c Hv [files seen commands] Hfiles. simpl in Hfiles. subst files.
    eexists. split; [apply Hv | done]. }
  repeat (constructor; try (apply Hnode; intros; vm_compute; reflexivity)).
Qed.

Lemma shop_reach :
  reach overlay_wins Sample.json_Unmarshal_Component
    Sample.json_Unmarshal_ComponentConfig Sample.fs "production" Sample.record_visit
    (Sample.start Sample.shop_files) [rootComponent "/repo"] []
    Sample.shop_done [] [Sample.shop_root; Sample.shop_web; Sample.shop_db; Sample.shop_api].
Proof. apply (iterate_reach _ _ _ _ _ _ 4). vm_compute. reflexivity. Qed.

Lemma shop_well_named :
  Forall well_named [Sample.shop_root; Sample.shop_web; Sample.shop_db; Sample.shop_api].
Proof.
  repeat constructor; vm_compute; try done.
  - intros [Heq | H]%elem_of_cons; [discriminate | by apply elem_of_nil in H].
  - by intros H%elem_of_nil.
  - by intros H%elem_of_nil.
Qed.

Lemma record_visit_LogicalPath (p : string) (c : Component) (w : Sample.World) :
  LogicalPath (Sample.record_visit p c w).1.2 = LogicalPath c.
Proof. reflexivity. Qed.

(** ** Witnesses and counterexamples *)


Lemma IterateComponentTree_unfolded_witness :
  Unfolds overlay_wins Sample.json_Unmarshal_Component
    Sample.json_Unmarshal_ComponentConfig Sample.fs "production" Sample.record_visit
    shop_stable (rootComponent "/repo") Sample.shop_tree
  ∧ Sample.fs (Sample.start Sample.shop_files) = Sample.shop_files
  ∧ ∃ w',
      (∀ fuel, (length (nodes Sample.shop_tree) ≤ fuel)%nat →
         traverse fuel "/repo" (Sample.start Sample.shop_files)
           = Some (w', (breadth_first Sample.shop_tree, None)))
      ∧ (∀ fuel answer,
           traverse fuel "/repo" (Sample.start Sample.shop_files) = Some answer →
           answer = (w', (breadth_first Sample.shop_tree, None)))
      ∧ length (breadth_first Sample.shop_tree) = S (length (descendants Sample.shop_tree))
      ∧ breadth_first Sample.shop_tree
          ≡ₚ root_of Sample.shop_tree :: descendants Sample.shop_tree
      ∧ head (breadth_first Sample.shop_tree) = Some (root_of Sample.shop_tree).
Proof.
  split; [exact shop_unfolds |]. split; [reflexivity |].
  exact (IterateComponentTree_unfolded overlay_wins Sample.json_Unmarshal_Component
           Sample.json_Unmarshal_ComponentConfig Sample.fs "production" Sample.record_visit
           shop_stable "/repo" Sample.shop_tree (Sample.start Sample.shop_files)
           shop_unfolds eq_refl).
Defined.

Lemma app_reach :
  reach overlay_wins Sample.json_Unmarshal_Component
    Sample.json_Unmarshal_ComponentConfig Sample.fs "production" Sample.record_visit
    (Sample.start Sample.app_files) [rootComponent "/repo"] []
    (Sample.mkWorld Sample.app_files ["/repo"] [])
    [componentToQueue Sample.app_root Sample.web] [Sample.app_root].
Proof.
  eapply reach_round; [vm_compute; reflexivity |]. apply reach_here.
Qed.

Lemma IterateComponentTree_fail_fast_witness :
  ∃ rounds, ∀ fuel, (rounds < fuel)%nat →
    traverse fuel "/repo" (Sample.start Sample.app_files)
    = Some (Sample.mkWorld Sample.app_files ["/repo"] [],
            ([], Some (NotFound "/repo/components/web/component.json"))).
Proof.
  destruct (IterateComponentTree_fail_fast overlay_wins Sample.json_Unmarshal_Component
              Sample.json_Unmarshal_ComponentConfig Sample.fs "production"
              Sample.record_visit "/repo" (Sample.start Sample.app_files)
              (Sample.mkWorld Sample.app_files ["/repo"] [])
              (componentToQueue Sample.app_root Sample.web) [] [Sample.app_root] app_reach)
    as (rounds & _ & _ & _ & _ & Hmissing & _).
  exists rounds. intros fuel Hfuel. by apply (Hmissing fuel).
Defined.

(** C3, counterexample: a root that declares [web] twice; the component
    [web] is loaded, dispatched and completed twice. *)
Lemma web_completed_twice :
  traverse 3 "/repo" (Sample.start Sample.twice_files)
  = Some (Sample.mkWorld Sample.twice_files
            ["/repo"; "/repo/components/web"; "/repo/components/web"] [],
          ([Sample.twice_root; Sample.twice_web; Sample.twice_web], None))
  ∧ ¬ NoDup [Sample.twice_root; Sample.twice_web; Sample.twice_web].
Proof.
  split; [vm_compute; reflexivity |].
  intros [_ [Hin _]%NoDup_cons]%NoDup_cons. apply Hin. left.
Qed.

Lemma no_logical_path_twice_witness :
  NoDup (map LogicalPath [Sample.shop_root; Sample.shop_web; Sample.shop_db; Sample.shop_api])
  ∧ NoDup [Sample.shop_root; Sample.shop_web; Sample.shop_db; Sample.shop_api].
Proof.
  destruct (no_logical_path_twice overlay_wins Sample.json_Unmarshal_Component
              Sample.json_Unmarshal_ComponentConfig Sample.fs "production"
              Sample.record_visit "/repo" (Sample.start Sample.shop_files) Sample.shop_done
              [] [Sample.shop_root; Sample.shop_web; Sample.shop_db; Sample.shop_api]
              shop_reach record_visit_LogicalPath shop_well_named)
    as (_ & Hpaths & Hnodes).
  rewrite app_nil_r in Hpaths. by split.
Defined.

Lemma Install_commands_witness :
  Install Sample.Run Sample.fetch "/repo" (Sample.start ∅)
  = (Sample.mkWorld ∅ []
       [ ["mkdir"; "-p"; "/repo/components"];
         ["rm"; "-rf"; "/repo/components/web"];
         ["git"; "clone"; "https://example/web.git"; "/repo/components/web"];
         ["mkdir"; "-p"; "/repo/components"];
         ["rm"; "-rf"; "/repo/components/api"];
         ["git"; "clone"; "https://example/api.git"; "/repo/components/api"];
         ["mkdir"; "-p"; "/repo/components"];
         ["rm"; "-rf"; "/repo/components/gone"];
         ["git"; "clone"; "https://example/gone.git"; "/repo/components/gone"] ],
     Some (InstallError
             ["git"; "clone"; "https://example/gone.git"; "/repo/components/gone"])).
Proof.
  destruct (Install_commands Sample.Run Sample.fetch "/repo" (Sample.start ∅))
    as (_ & _ & _ & Hfail).
  apply (Hfail
    [ ["mkdir"; "-p"; "/repo/components"];
      ["rm"; "-rf"; "/repo/components/web"];
      ["git"; "clone"; "https://example/web.git"; "/repo/components/web"];
      ["mkdir"; "-p"; "/repo/components"];
      ["rm"; "-rf"; "/repo/components/api"];
      ["git"; "clone"; "https://example/api.git"; "/repo/components/api"];
      ["mkdir"; "-p"; "/repo/components"];
      ["rm"; "-rf"; "/repo/components/gone"] ]
    ["git"; "clone"; "https://example/gone.git"; "/repo/components/gone"]
    [ ["mkdir"; "-p"; "/repo/components"];
      ["rm"; "-rf"; "/repo/components/web"];
      ["git"; "clone"; "https://example/web.git"; "/repo/components/web"] ]
    (Sample.mkWorld ∅ []
       [ ["mkdir"; "-p"; "/repo/components"];
         ["rm"; "-rf"; "/repo/components/web"];
         ["git"; "clone"; "https://example/web.git"; "/repo/components/web"];
         ["mkdir"; "-p"; "/repo/components"];
         ["rm"; "-rf"; "/repo/components/api"];
         ["git"; "clone"; "https://example/api.git"; "/repo/components/api"];
         ["mkdir"; "-p"; "/repo/components"];
         ["rm"; "-rf"; "/repo/components/gone"] ])); vm_compute; reflexivity.
Defined.

(** C4, counterexample: a sub-component with the method "git" and no
    source is not left alone: its directory is removed and a clone from the
    empty address is attempted. *)
Lemma sourceless_git_installed :
  map Source (Subcomponents Sample.sourceless) = [""]
  ∧ Install Sample.Run Sample.sourceless "/repo" (Sample.start ∅)
    = (Sample.mkWorld ∅ []
         [ ["mkdir"; "-p"; "/repo/components"];
           ["rm"; "-rf"; "/repo/components/cache"];
           ["git"; "clone"; ""; "/repo/components/cache"] ],
       Some (InstallError ["git"; "clone"; ""; "/repo/components/cache"])).
Proof. split; vm_compute; reflexivity. Qed.

Lemma inline_never_enqueued_witness :
  (∃ visited,
     visits overlay_wins Sample.json_Unmarshal_Component
       Sample.json_Unmarshal_ComponentConfig Sample.fs "production" Sample.record_visit
       (Sample.start Sample.shop_files) visited
       [Sample.shop_root; Sample.shop_web; Sample.shop_db; Sample.shop_api] Sample.shop_done
     ∧ visited ++ [] =
         rootComponent "/repo"
         :: flat_map stubs [Sample.shop_root; Sample.shop_web; Sample.shop_db; Sample.shop_api])
  ∧ length [Sample.shop_root; Sample.shop_web; Sample.shop_db; Sample.shop_api] + 0 = 4.
Proof.
  destruct (inline_never_enqueued overlay_wins Sample.json_Unmarshal_Component
              Sample.json_Unmarshal_ComponentConfig Sample.fs "production"
              Sample.record_visit "/repo" (Sample.start Sample.shop_files) Sample.shop_done
              [] [Sample.shop_root; Sample.shop_web; Sample.shop_db; Sample.shop_api]
              shop_reach)
    as (Hvisited & _ & Hcount & _).
  split; [exact Hvisited | exact Hcount].
Defined.



Example shop_logical_paths :
  map LogicalPath (flat_map stubs
    [Sample.shop_root; Sample.shop_web; Sample.shop_db; Sample.shop_api])
  = ["web"; "db"; "web/api"].
Proof. reflexivity. Qed.

Lemma LoadComponent_spec_witness :
  LoadComponent overlay_wins Sample.json_Unmarshal_Component Sample.shop_files
    (componentToQueue Sample.shop_root Sample.web)
  = inr Sample.shop_web
  ∧ PhysicalPath Sample.shop_web
    = PhysicalPath (componentToQueue Sample.shop_root Sample.web)
  ∧ LogicalPath Sample.shop_web
    = LogicalPath (componentToQueue Sample.shop_root Sample.web)
  ∧ LoadComponent overlay_wins Sample.json_Unmarshal_Component Sample.app_files
      (componentToQueue Sample.app_root Sample.web)
    = inl (NotFound "/repo/components/web/component.json")
  ∧ LoadComponent overlay_wins Sample.json_Unmarshal_Component Sample.again_files
      (rootComponent "/repo")
    = inl ParseError
  ∧ LoadComponent overlay_wins Sample.json_Unmarshal_Component Sample.unreadable_files
      (rootComponent "/repo")
    = inl (IOError "/repo/component.json").
Proof.
  destruct (LoadComponent_spec overlay_wins Sample.json_Unmarshal_Component
              Sample.shop_files (componentToQueue Sample.shop_root Sample.web))
    as (Hload & Hok & _).
  assert (LoadComponent overlay_wins Sample.json_Unmarshal_Component Sample.shop_files
            (componentToQueue Sample.shop_root Sample.web) = inr Sample.shop_web) as Hweb.
  { rewrite (Hload "web" (Sample.descriptor "web" [Sample.api] ComponentConfig.empty));
      vm_compute; reflexivity. }
  destruct (Hok Sample.shop_web Hweb) as (Hphysical & Hlogical & _).
  destruct (LoadComponent_spec overlay_wins Sample.json_Unmarshal_Component
              Sample.app_files (componentToQueue Sample.app_root Sample.web))
    as (_ & _ & Hmissing & _).
  destruct (LoadComponent_spec overlay_wins Sample.json_Unmarshal_Component
              Sample.again_files (rootComponent "/repo"))
    as (_ & _ & _ & Hmalformed & _).
  destruct (LoadComponent_spec overlay_wins Sample.json_Unmarshal_Component
              Sample.unreadable_files (rootComponent "/repo"))
    as (_ & _ & _ & _ & Hunreadable).
  split; [exact Hweb |]. split; [exact Hphysical |]. split; [exact Hlogical |].
  split; [apply Hmissing; vm_compute; reflexivity |].
  split; [apply (Hmalformed "again"); vm_compute; reflexivity |].
  apply Hunreadable. vm_compute. reflexivity.
Defined.

Lemma LoadConfig_overlays_witness :
  LoadConfig overlay_wins Sample.json_Unmarshal_ComponentConfig Sample.shop_files "production"
    (Sample.resolved "shop" [] "/repo" "./" ComponentConfig.empty)
  = (set_Config
       (overlay_wins (overlay_wins ComponentConfig.empty Sample.production) Sample.common)
       (Sample.resolved "shop" [] "/repo" "./" ComponentConfig.empty), None)
  ∧ LoadConfig overlay_wins Sample.json_Unmarshal_ComponentConfig Sample.app_files "production"
      (Sample.resolved "app" [] "/repo" "./" ComponentConfig.empty)
    = (Sample.resolved "app" [] "/repo" "./" ComponentConfig.empty, None).
Proof.
  split.
  - destruct (LoadConfig_overlays overlay_wins Sample.json_Unmarshal_ComponentConfig
                Sample.shop_files "production"
                (Sample.resolved "shop" [] "/repo" "./" ComponentConfig.empty))
      as (_ & Hboth & _).
    apply (Hboth "production" "common"); vm_compute; reflexivity.
  - destruct (LoadConfig_overlays overlay_wins Sample.json_Unmarshal_ComponentConfig
                Sample.app_files "production"
                (Sample.resolved "app" [] "/repo" "./" ComponentConfig.empty))
      as (_ & _ & Hnone).
    apply Hnone; vm_compute; reflexivity.
Defined.

Lemma merge_empty_identity_witness :
  ∃ bytes decoded,
    Sample.json_Unmarshal_Component bytes = Some decoded
    ∧ Config (Sample.resolved "shop" [Sample.assets; Sample.web; Sample.db] "/repo" "./"
                Sample.shop_config)
      = Config decoded.
Proof.
  destruct (merge_empty_identity MergeModel.FillGaps Sample.shop_config)
    as (_ & _ & _ & Hroot).
  apply (Hroot Sample.json_Unmarshal_Component Sample.shop_files "/repo").
  vm_compute. reflexivity.
Defined.

(** ** Further runs of the samples *)

Lemma IterateComponentTree_cycle_witness :
  IterateComponentTree overlay_wins Sample.again_decoder
    Sample.json_Unmarshal_ComponentConfig Sample.fs "production" Sample.record_visit
    1000 "/repo" (Sample.start Sample.again_files) = None.
Proof.
  apply (IterateComponentTree_cycle overlay_wins Sample.again_decoder
           Sample.json_Unmarshal_ComponentConfig Sample.fs "production" Sample.record_visit
           (fun w => Sample.fs w = Sample.again_files)
           (fun stub => PhysicalPath stub = "/repo") "/repo"
           (Sample.start Sample.again_files)).
  - intros [files seen commands] stub Hfiles Hstub. simpl in Hfiles. subst files.
    destruct stub as [name source method generator subs repo path physical logical config
                        manifest].
    simpl in Hstub. subst physical.
    exists (Sample.mkWorld Sample.again_files (seen ++ ["/repo"]) commands),
      (mkComponent "again" "" "" "" [Sample.nameless] "" "" "/repo" logical
         (overlay_wins ComponentConfig.empty config) "").
    split; [vm_compute; reflexivity |]. split; [reflexivity |]. split; [done |].
    repeat constructor.
  - reflexivity.
  - reflexivity.
Defined.

Lemma Install_target_witness :
  install_steps (PhysicalPath Sample.shop_root) Sample.web
    = [ ["mkdir"; "-p"; "/repo/components"];
        ["rm"; "-rf"; "/repo/components/web"];
        ["git"; "clone"; "https://example/web.git"; "/repo/components/web"] ]
  ∧ PhysicalPath (componentToQueue Sample.shop_root Sample.web) = "/repo/components/web"
  ∧ path_Join [PhysicalPath (componentToQueue Sample.shop_root Sample.web); "component.json"]
    = "/repo/components/web/component.json".
Proof.
  apply (Install_target true ["repo"] Sample.shop_root Sample.web);
    [by repeat constructor | reflexivity | reflexivity | reflexivity].
Defined.

Lemma shop_descriptors_plain (path bytes : string) (c : Component) :
  Sample.shop_files !! path = Some (Data bytes) →
  Sample.json_Unmarshal_Component bytes = Some c →
  Forall (fun sub => plain_name (Name sub) = true)
    (filter (fun sub => Source sub ≠ "") (Subcomponents c))
  ∧ (length (filter (fun sub => Source sub ≠ "") (Subcomponents c)) ≤ 2)%nat.
Proof.
  intros Hin Hdec. unfold Sample.shop_files in Hin. apply elem_of_list_to_map_2 in Hin.
  repeat (apply elem_of_cons in Hin as [Heq | Hin];
          [injection Heq as -> ->; vm_compute in Hdec;
           first [ discriminate Hdec
                 | injection Hdec as <-; split;
                   [vm_compute; repeat constructor | vm_compute; lia] ] |]).
  by apply elem_of_nil in Hin.
Qed.

Lemma IterateComponentTree_returns_witness :
  is_Some (traverse 63 "/repo" (Sample.start Sample.shop_files)).
Proof.
  apply (IterateComponentTree_returns overlay_wins Sample.json_Unmarshal_Component
           Sample.json_Unmarshal_ComponentConfig Sample.fs "production" Sample.record_visit
           shop_stable Sample.shop_files 2 true
           (fun w Hw => Hw) (fun p c w Hw => Hw) (fun p c w => conj eq_refl eq_refl)
           shop_descriptors_plain ["repo"] (Sample.start Sample.shop_files) 63).
  - by repeat constructor.
  - reflexivity.
  - vm_compute. lia.
Defined.

Lemma callback_calls_witness :
  ∃ calls,
    IterateComponentTree overlay_wins Sample.json_Unmarshal_Component
      Sample.json_Unmarshal_ComponentConfig (fun wl => Sample.fs wl.1) "production"
      (logged Sample.record_visit) 4 "/repo" (Sample.start Sample.shop_files, [])
    = Some ((Sample.shop_done, [] ++ calls),
            ([Sample.shop_root; Sample.shop_web; Sample.shop_db; Sample.shop_api], None))
    ∧ Forall2 (fun stub call =>
                 call.1 = PhysicalPath stub
                 ∧ PhysicalPath call.2 = PhysicalPath stub
                 ∧ LogicalPath call.2 = LogicalPath stub)
        (rootComponent "/repo"
         :: flat_map stubs [Sample.shop_root; Sample.shop_web; Sample.shop_db; Sample.shop_api])
        calls
    ∧ Forall2 (fun call c => ∃ w1 w2, Sample.record_visit call.1 call.2 w1 = (w2, c, None))
        calls [Sample.shop_root; Sample.shop_web; Sample.shop_db; Sample.shop_api].
Proof.
  apply (callback_calls overlay_wins Sample.json_Unmarshal_Component
           Sample.json_Unmarshal_ComponentConfig Sample.fs "production" Sample.record_visit
           4 "/repo" (Sample.start Sample.shop_files)).
  vm_compute. reflexivity.
Defined.

Lemma install_while_traversing_witness :
  run_all Sample.Run
    (flat_map (fun c => install_commands c (PhysicalPath c))
       [Sample.shop_root; Sample.shop_web; Sample.shop_db; Sample.shop_api])
    (Sample.start Sample.shop_files)
  = (Sample.shop_installed, None).
Proof.
  apply (install_while_traversing overlay_wins Sample.json_Unmarshal_Component
           Sample.json_Unmarshal_ComponentConfig Sample.fs Sample.Run "production"
           4 "/repo").
  vm_compute. reflexivity.
Defined.

Lemma Install_immediate_witness :
  Install Sample.Run Sample.fetch "/repo" (Sample.start ∅)
  = Install Sample.Run Sample.fetch_below "/repo" (Sample.start ∅).
Proof.
  apply (Install_immediate Sample.Run Sample.fetch Sample.fetch_below). reflexivity.
Defined.
